(** * The step-function execution engine of inngest-js: [InngestFunction.runFn]

    A shallow embedding of [InngestFunction.runFn] (core/InngestFunction.ts)
    together with the run state it shares with the step tools, and the
    properties of its three outcomes: ["single"], ["multi-run"] and
    ["multi-discovery"].

    The JavaScript objects that [runFn] mutates through aliases (the arrays
    [state.allFoundOps], [state.tickOps] and every [TickOp.tickOps]) live in
    an explicit heap of [TickOp]s; an array is named by a reference, so that
    a push through [state.tickOps] is seen by the tree walk that starts from
    [state.allFoundOps].

    What the model takes for granted:
    - the user function is deterministic and acts on the run state only
      through the step tools and the promises they return; it is given as
      the tree [Proc] of its synchronous runs and continuations;
    - a step's thunk is given by how the promise of its call ends;
    - [createStepTools], the step tools and [resolveNextTick] are not part
      of the sources at hand and follow their description in the
      specification; [serializeError] is a parameter.

    The file has five parts: the program, the vocabulary of the statements,
    example functions and histories, the rest of the function object with
    the client, the landing page and the Remix handler, and the lemmas and
    theorems. *)

From Stdlib Require Import Ascii.
From stdpp Require Import base numbers list strings sorting pretty.

Local Open Scope string_scope.
Local Open Scope list_scope.

Set Warnings "-register-all".

(** * The program *)

(** ** JavaScript values *)

Inductive JsVal : Type :=
  | VUndefined
  | VNull
  | VBool (b : bool)
  | VNum (n : Z)
  | VStr (s : string)
  | VError (name message : string)          (* an instance of Error *)
  | VObject (fields : list (string * JsVal)). (* a plain object *)

(** [typeof v === "undefined"] *)
Definition is_undefined (v : JsVal) : bool :=
  match v with VUndefined => true | _ => false end.

Fixpoint get_field (key : string) (fields : list (string * JsVal)) : option JsVal :=
  match fields with
  | [] => None
  | (k, v) :: rest => if String.eqb k key then Some v else get_field key rest
  end.

(** [v.message], where it is defined. *)
Definition message_of (v : JsVal) : option JsVal :=
  match v with
  | VError _ m => Some (VStr m)
  | VObject fields => get_field "message" fields
  | _ => None
  end.

(** How an evaluation or a promise ends: with a value, or with a thrown
    value / rejection reason. *)
Inductive Completion : Type :=
  | Normal (v : JsVal)
  | Abrupt (e : JsVal).

(** A step's executable thunk, [() => opts.fn(...args)].  Calling it and
    awaiting what it returns either fulfils, rejects, or never settles. *)
Inductive Thunk : Type :=
  | Fulfils (v : JsVal)
  | Rejects (err : JsVal)
  | Stalls.

(** The identifying part of an op ([HashedOp]): what [runFn] copies into a
    discovered op. *)
Record OpInfo : Type := mkOpInfo {
  op_op : string;
  op_id : string;
  op_name : string;
  op_opts : JsVal
}.

(** ** The user function

    A [TickOp] is named by its address in the heap; the promise a step tool
    returns is the promise of the [TickOp] it registered, so the address also
    stands for that promise. *)
Abbreviation Handle := nat (only parsing).

(** The user's function, [this.#fn], as the tree of what it does with the
    step tools and with promises.  Every constructor is one synchronous
    action followed by the rest of the synchronous run:
    - [Idle]: this strand of control has nothing left to do;
    - [Return v] / [Throw e]: the function body returns [v] / throws [e];
    - [UseTool o fn k]: calls a step tool, which registers an op and hands
      back its promise, then goes on with [k];
    - [Then h f g k]: [h.then(f, g)], then goes on with [k]
      ([await h] is [Then h f g Idle]);
    - [Later job k]: schedules [job] as a microtask on an already settled
      promise that is not a step, then goes on with [k]. *)
Inductive Proc : Type :=
  | Idle
  | Return (v : JsVal)
  | Throw (e : JsVal)
  | UseTool (o : OpInfo) (fn : option Thunk) (k : Handle -> Proc)
  | Then (h : Handle) (onFulfilled onRejected : JsVal -> Proc) (k : Proc)
  | Later (job : Proc) (k : Proc).

Definition Reaction : Type := (JsVal -> Proc) * (JsVal -> Proc).

Definition react (c : Completion) (r : Reaction) : Proc :=
  match c with
  | Normal v => fst r v
  | Abrupt e => snd r e
  end.

Inductive PromiseState : Type :=
  | Pending (reactions : list Reaction)
  | Settled (c : Completion).

(** ** Run state *)

(** [TickOp] (declared in core/InngestStepTools.ts): an op found during
    this invocation, with the fields [runFn] reads.  [t_info] holds [op],
    [id], [name] and [opts]; [t_promise] is the promise the tool returned,
    which the [resolve] and [reject] of the op act on. *)
Record TickOp : Type := mkTickOp {
  t_info : OpInfo;
  t_fn : option Thunk;
  t_tickOps : list Handle;
  t_promise : PromiseState   (* what [resolve] and [reject] act on *)
}.

(** A reference to one of the arrays of [TickOp]s: [state.allFoundOps], or
    the [tickOps] array of the op at an address. *)
Inductive ArrayRef : Type :=
  | RootOps
  | ChildOps (a : Handle).

(** The state returned by [createStepTools] ([hasUsedTools], [pos],
    [tickOps], [allFoundOps], [userFnToRun]), with the heap that holds the
    ops, the microtask queue and the promise of the user function
    ([userFnPromise], a local of [runFn]). *)
Record State : Type := mkState {
  hasUsedTools : bool;
  pos : Z;
  tickOps : ArrayRef;
  allFoundOps : list Handle;
  userFnToRun : option Thunk;
  heap : list TickOp;
  microtasks : list Proc;
  userFnPromise : option Completion
}.

Definition set_pos (p : Z) (st : State) : State :=
  mkState (hasUsedTools st) p (tickOps st) (allFoundOps st) (userFnToRun st)
          (heap st) (microtasks st) (userFnPromise st).

Definition set_tickOps (r : ArrayRef) (st : State) : State :=
  mkState (hasUsedTools st) (pos st) r (allFoundOps st) (userFnToRun st)
          (heap st) (microtasks st) (userFnPromise st).

Definition set_userFnToRun (t : option Thunk) (st : State) : State :=
  mkState (hasUsedTools st) (pos st) (tickOps st) (allFoundOps st) t
          (heap st) (microtasks st) (userFnPromise st).

Definition set_heap (h : list TickOp) (st : State) : State :=
  mkState (hasUsedTools st) (pos st) (tickOps st) (allFoundOps st) (userFnToRun st)
          h (microtasks st) (userFnPromise st).

Definition set_microtasks (q : list Proc) (st : State) : State :=
  mkState (hasUsedTools st) (pos st) (tickOps st) (allFoundOps st) (userFnToRun st)
          (heap st) q (userFnPromise st).

Definition set_userFnPromise (c : option Completion) (st : State) : State :=
  mkState (hasUsedTools st) (pos st) (tickOps st) (allFoundOps st) (userFnToRun st)
          (heap st) (microtasks st) c.

(** The array a reference denotes. *)
Definition deref (st : State) (r : ArrayRef) : list Handle :=
  match r with
  | RootOps => allFoundOps st
  | ChildOps a =>
      match heap st !! a with
      | Some node => t_tickOps node
      | None => []
      end
  end.

Definition add_child (c : Handle) (node : TickOp) : TickOp :=
  mkTickOp (t_info node) (t_fn node) (t_tickOps node ++ [c]) (t_promise node).

Definition set_promise (p : PromiseState) (node : TickOp) : TickOp :=
  mkTickOp (t_info node) (t_fn node) (t_tickOps node) p.

(** Modelled from the spec: [createStepTools] (core/InngestStepTools.ts),
    the initial run state.  No tool was used, the "currently active node's
    child list" is the root-level list, no thunk is selected, and the cursor
    is before the first record of the history ([runFn] guards its first
    iteration with [state.pos >= 0]). *)
Definition createStepTools : State :=
  mkState false (-1) RootOps [] None [] [] None.

(** Modelled from the spec: a step tool (core/InngestStepTools.ts).  A call
    flips the "tools were used" signal, creates a new op with a pending
    promise and no children, and pushes it onto the child list of the
    currently active node, [state.tickOps]. *)
Definition useTool (o : OpInfo) (fn : option Thunk) (st : State) : Handle * State :=
  let a := length (heap st) in
  let node := mkTickOp o fn [] (Pending []) in
  let heap1 := heap st ++ [node] in
  match tickOps st with
  | RootOps =>
      (a, mkState true (pos st) RootOps (allFoundOps st ++ [a]) (userFnToRun st)
                  heap1 (microtasks st) (userFnPromise st))
  | ChildOps p =>
      (a, mkState true (pos st) (ChildOps p) (allFoundOps st) (userFnToRun st)
                  (alter (add_child a) p heap1) (microtasks st) (userFnPromise st))
  end.

(** Modelled from the spec: [currentOp.resolve(v)] / [currentOp.reject(e)],
    the handles of the "pending value" of an op, which the step tool stores
    in the [TickOp] (core/InngestStepTools.ts).  They "fulfill or reject the
    resolved node's pending value, allowing any attached continuations to
    become runnable"; as for every JavaScript promise, the first call
    settles it and queues its reactions as microtasks, and a call on a
    settled promise does nothing. *)
Definition settle (a : Handle) (c : Completion) (st : State) : State :=
  match heap st !! a with
  | Some node =>
      match t_promise node with
      | Pending reactions =>
          set_microtasks (microtasks st ++ map (react c) reactions)
            (set_heap (<[a := set_promise (Settled c) node]> (heap st)) st)
      | Settled _ => st
      end
  | None => st
  end.

(** [h.then(f, g)]: on a pending promise the reaction is stored, on a
    settled one it is queued at once; a handle that names no op is a promise
    that never settles. *)
Definition subscribe (h : Handle) (r : Reaction) (st : State) : State :=
  match heap st !! h with
  | Some node =>
      match t_promise node with
      | Pending reactions =>
          set_heap (<[h := set_promise (Pending (reactions ++ [r])) node]> (heap st)) st
      | Settled c => set_microtasks (microtasks st ++ [react c r]) st
      end
  | None => st
  end.

(** The promise of the user function settles once. *)
Definition finish (c : Completion) (st : State) : State :=
  match userFnPromise st with
  | None => set_userFnPromise (Some c) st
  | Some _ => st
  end.

(** One synchronous run of user code. *)
Fixpoint exec (p : Proc) (st : State) : State :=
  match p with
  | Idle => st
  | Return v => finish (Normal v) st
  | Throw e => finish (Abrupt e) st
  | UseTool o fn k => let '(h, st1) := useTool o fn st in exec (k h) st1
  | Then h f g k => exec k (subscribe h (f, g) st)
  | Later job k => exec k (set_microtasks (microtasks st ++ [job]) st)
  end.

(** Modelled from the spec: [resolveNextTick] (helpers/promises.ts), awaited
    once per iteration: "drain all currently-ready continuations".  The
    continuations that are ready when the yield begins run in the order they
    were queued; what they queue in turn waits for the next yield. *)
Definition resolveNextTick (st : State) : State :=
  foldl (fun s job => exec job s) (set_microtasks [] st) (microtasks st).

(** ** The history and the outcomes *)

(** [IncomingOp]: one record of the op stack.  An absent [data] or [error]
    key reads as [undefined], an absent [run] as falsy. *)
Record IncomingOp : Type := mkIncomingOp {
  opPosition : list Z;
  run : bool;
  data : JsVal;
  error : JsVal
}.

Abbreviation OpStack := (list IncomingOp) (only parsing).

(** [OutgoingOp]: a discovered op; [out_run] says whether the [run: true]
    key is present. *)
Record OutgoingOp : Type := mkOutgoingOp {
  out_op : string;
  out_run : bool;
  out_id : string;
  out_name : string;
  out_opts : JsVal;
  out_opPosition : list Z
}.

(** The object returned for a step that ran: [{ data }] or [{ error }],
    each key present or absent. *)
Record StepObject : Type := mkStepObject {
  r_data : option JsVal;
  r_error : option JsVal
}.

Inductive Payload : Type :=
  | PValue (v : JsVal)
  | PStep (r : StepObject)
  | POps (ops : list OutgoingOp).

(** How the promise returned by [runFn] ends: fulfilled with the tuple
    [[type, payload]], rejected, or never settled.  [OutOfFuel] is the
    model's own: the event loop was not given enough turns. *)
Inductive Outcome : Type :=
  | Returned (type : string) (payload : Payload)
  | Threw (e : JsVal)
  | Unsettled
  | OutOfFuel.

(** The outcome together with what was written with [console.warn]. *)
Record Invocation : Type := mkInvocation {
  outcome : Outcome;
  warnings : list (string * JsVal)
}.

Definition quiet (o : Outcome) : Invocation := mkInvocation o [].

(** ** The errors [runFn] throws *)

Definition badStackNoFn : JsVal :=
  VError "Error" "Bad stack; no fn to execute; re-execute pls".

Definition badStackChanged : JsVal :=
  VError "Error" "Bad stack; fn might have changed; re-execute".

(** Reading a property of [undefined]. *)
Definition typeError : JsVal :=
  VError "TypeError" "Cannot read properties of undefined".

(** ** The replay loop *)

(** [arr[i]] for a number [i]: [undefined] outside the array. *)
Definition js_index {A} (arr : list A) (i : Z) : option A :=
  if (0 <=? i)%Z then arr !! Z.to_nat i else None.

(** How the [for] loop over [incomingOp.opPosition] ends: it completes (or
    [break]s) with the state and [currentOp], or it throws. *)
Inductive Walk : Type :=
  | Walked (st : State) (currentOp : option Handle)
  | WalkThrew (e : JsVal).

(** The [for] loop of [runFn], from index [i] on: [path] is what is left of
    [incomingOp.opPosition].  An index that names no op makes [currentOp]
    [undefined], and the first read of one of its properties ([tickOps],
    [fn], [resolve] or [reject]) throws. *)
Fixpoint walk (incomingOp : IncomingOp) (path : list Z) (targetOps : list Handle)
    (currentOp : option Handle) (st : State) : Walk :=
  match path with
  | [] => Walked st currentOp
  | idx :: rest =>
      let currentOp := js_index targetOps idx in
      let isLastAccess := match rest with [] => true | _ :: _ => false end in
      match currentOp ≫= (fun a => (a ,.) <$> heap st !! a) with
      | None => WalkThrew typeError
      | Some (a, node) =>
          if negb isLastAccess then
            (* targetOps = currentOp.tickOps; continue *)
            walk incomingOp rest (t_tickOps node) currentOp st
          else if run incomingOp then
            match t_fn node with
            | None => WalkThrew badStackNoFn
            | Some fn => Walked (set_userFnToRun (Some fn) st) currentOp (* break *)
            end
          else if negb (is_undefined (data incomingOp)) then
            walk incomingOp rest targetOps currentOp
              (settle a (Normal (data incomingOp)) st)
          else
            walk incomingOp rest targetOps currentOp
              (settle a (Abrupt (error incomingOp)) st)
      end
  end.

(** What one pass through the body of the [do ... while] does before it
    yields. *)
Inductive Flow : Type :=
  | Next (st : State)
  | Break (st : State)
  | Throws (e : JsVal).

Definition iteration (opStack : OpStack) (st : State) : Flow :=
  if (0 <=? pos st)%Z then
    match js_index opStack (pos st) with
    | None => Throws typeError
    | Some incomingOp =>
        match walk incomingOp (opPosition incomingOp) (allFoundOps st) None st with
        | WalkThrew e => Throws e
        | Walked st1 currentOp =>
            match userFnToRun st1 with
            | Some _ => Break st1
            | None =>
                match currentOp with
                | None => Throws badStackChanged
                | Some a => Next (set_tickOps (ChildOps a) st1)
                end
            end
        end
    end
  else Next st.

(** How the [do ... while] ends. *)
Inductive LoopEnd : Type :=
  | LoopDone (st : State)
  | LoopThrew (e : JsVal)
  | LoopOutOfFuel.

Fixpoint do_while (fuel : nat) (opStack : OpStack) (st : State) : LoopEnd :=
  match fuel with
  | O => LoopOutOfFuel
  | S fuel' =>
      match iteration opStack st with
      | Throws e => LoopThrew e
      | Break st1 => LoopDone st1
      | Next st1 =>
          let st2 := resolveNextTick st1 in
          let st3 := set_pos (pos st2 + 1) st2 in
          if (pos st3 <? Z.of_nat (length opStack))%Z
          then do_while fuel' opStack st3
          else LoopDone st3
      end
  end.

(** ** The three ends of [runFn] *)

#[global] Instance TickOp_inhabited : Inhabited TickOp :=
  populate (mkTickOp (mkOpInfo "" "" "" VUndefined) None [] (Pending [])).

(** [opStack[opStack.length - 1]?.opPosition ?? []] *)
Definition lastPosition (opStack : OpStack) : list Z :=
  match last opStack with
  | Some incomingOp => opPosition incomingOp
  | None => []
  end.

Definition discoveredOp (opStack : OpStack) (st : State) (index : nat) (a : Handle)
    : OutgoingOp :=
  let op := heap st !!! a in
  mkOutgoingOp (op_op (t_info op))
               (match t_fn op with Some _ => true | None => false end)
               (op_id (t_info op)) (op_name (t_info op)) (op_opts (t_info op))
               (lastPosition opStack ++ [Z.of_nat index]).

(** [state.tickOps.map((op, index) => ...)] *)
Definition discoveredOps (opStack : OpStack) (st : State) : list OutgoingOp :=
  imap (discoveredOp opStack st) (deref st (tickOps st)).

(** What [await userFnPromise] gives.  [TurnsRanOut] is the model's own:
    the event loop was not given enough turns. *)
Inductive Awaited : Type :=
  | Fulfilled (v : JsVal)
  | RejectedWith (e : JsVal)
  | NeverSettles
  | TurnsRanOut.

(** [await userFnPromise] when nothing else drives the user function: the
    event loop takes turns until the promise has settled; with nothing left
    to run it never settles. *)
Fixpoint awaitUserFn (fuel : nat) (st : State) : Awaited :=
  match userFnPromise st with
  | Some (Normal v) => Fulfilled v
  | Some (Abrupt e) => RejectedWith e
  | None =>
      match microtasks st with
      | [] => NeverSettles
      | _ :: _ =>
          match fuel with
          | O => TurnsRanOut
          | S fuel' => awaitUserFn fuel' (resolveNextTick st)
          end
      end
  end.

(** [["single", await userFnPromise]] *)
Definition single (awaited : Awaited) : Outcome :=
  match awaited with
  | Fulfilled v => Returned "single" (PValue v)
  | RejectedWith e => Threw e
  | NeverSettles => Unsettled
  | TurnsRanOut => OutOfFuel
  end.

Definition serializationWarning : string :=
  "Could not serialize error to return to Inngest; stringifying instead".

Section RunFn.

(** [serializeError] of the package serialize-error-cjs: its result, or
    what it throws. *)
Variable serializeError : JsVal -> Completion.

(** [new Promise((resolve) => resolve(userFnToRun())).then(...).catch(...)]
    and the [return ["multi-run", result]] that follows. *)
Definition runStep (userFnToRun : Thunk) : Invocation :=
  match userFnToRun with
  | Fulfils data =>
      quiet (Returned "multi-run"
               (PStep (mkStepObject
                         (Some (if is_undefined data then VNull else data)) None)))
  | Rejects err =>
      match serializeError err with
      | Normal serialized =>
          quiet (Returned "multi-run" (PStep (mkStepObject None (Some serialized))))
      | Abrupt serializationErr =>
          mkInvocation
            (Returned "multi-run" (PStep (mkStepObject None (Some err))))
            [(serializationWarning, serializationErr)]
      end
  | Stalls => quiet Unsettled
  end.

(** [runFn(data, opStack)] for the user function [fn].  [fn] receives the
    event data; the tools it is handed, and the [fns] of the options, which
    [runFn] wraps in [tools.run], are the [UseTool] of [Proc].  [fuel]
    bounds the turns of the event loop spent on [await userFnPromise]. *)
Definition runFn (fuel : nat) (fn : JsVal -> Proc) (data : JsVal) (opStack : OpStack)
    : Invocation :=
  let state := createStepTools in
  let state := exec (fn data) state in
  if negb (hasUsedTools state) then quiet (single (awaitUserFn fuel state))
  else
    match do_while (S (length opStack)) opStack state with
    | LoopThrew e => quiet (Threw e)
    | LoopOutOfFuel => quiet OutOfFuel
    | LoopDone state =>
        match userFnToRun state with
        | Some userFnToRun => runStep userFnToRun
        | None => quiet (Returned "multi-discovery" (POps (discoveredOps opStack state)))
        end
    end.

End RunFn.

(** * The vocabulary of the statements *)

(** [same_control st st']: the cursor, the array [state.tickOps] refers to
    and the selected thunk are in [st'] what they are in [st]. *)
Record same_control (st st' : State) : Prop := mkSameControl {
  sc_pos : pos st' = pos st;
  sc_tickOps : tickOps st' = tickOps st;
  sc_userFnToRun : userFnToRun st' = userFnToRun st
}.

(** ** Reading a position path

    [resolve st targetOps path] is the op a position path leads to from the
    array [targetOps], through the [tickOps] of each op on the way; [None]
    when an index on the way names no op, or when the path is empty. *)
Fixpoint resolve (st : State) (targetOps : list Handle) (path : list Z)
    : option (Handle * TickOp) :=
  match path with
  | [] => None
  | idx :: rest =>
      match js_index targetOps idx ≫= (fun a => (a ,.) <$> heap st !! a) with
      | None => None
      | Some (a, node) =>
          match rest with
          | [] => Some (a, node)
          | _ :: _ => resolve st (t_tickOps node) rest
          end
      end
  end.

(** What a record that is not a run request settles the promise with. *)
Definition replayed (incomingOp : IncomingOp) : Completion :=
  if negb (is_undefined (data incomingOp)) then Normal (data incomingOp)
  else Abrupt (error incomingOp).

(** The state after the synchronous run of the user function. *)
Definition start (fn : JsVal -> Proc) (data : JsVal) : State :=
  exec (fn data) createStepTools.

(** The replay loop as [runFn] runs it. *)
Definition replay (fn : JsVal -> Proc) (data : JsVal) (opStack : OpStack) : LoopEnd :=
  do_while (S (length opStack)) opStack (start fn data).

(** A record has drifted from the ops found so far when its position path
    leads to no op, or when it asks to run an op that has no thunk. *)
Definition drifted (st : State) (incomingOp : IncomingOp) : Prop :=
  resolve st (allFoundOps st) (opPosition incomingOp) = None ∨
  (run incomingOp = true ∧
   ∃ a node, resolve st (allFoundOps st) (opPosition incomingOp) = Some (a, node) ∧
             t_fn node = None).

Definition is_drift_error (e : JsVal) : Prop :=
  e = typeError ∨ e = badStackNoFn ∨ e = badStackChanged.

(** The replay loop selects the thunk [t]: the user function used a tool
    in its synchronous run, and the loop ended with [state.userFnToRun = t]. *)
Definition selects (fn : JsVal -> Proc) (data : JsVal) (opStack : OpStack) (t : Thunk)
    : Prop :=
  hasUsedTools (start fn data) = true ∧
  ∃ st, replay fn data opStack = LoopDone st ∧ userFnToRun st = Some t.

(** The loop ran through the whole history and selected nothing; [st] is
    the state it ended in. *)
Definition exhausts (fn : JsVal -> Proc) (data : JsVal) (opStack : OpStack) (st : State)
    : Prop :=
  hasUsedTools (start fn data) = true ∧
  replay fn data opStack = LoopDone st ∧ userFnToRun st = None.

(** ** Functions that use no step tool *)

(** Whether the synchronous run of user code calls a step tool. *)
Fixpoint usesToolSync (p : Proc) : bool :=
  match p with
  | Idle | Return _ | Throw _ => false
  | UseTool _ _ _ => true
  | Then _ _ _ k => usesToolSync k
  | Later _ k => usesToolSync k
  end.

(** User code that calls no step tool, now or in any continuation. *)
Inductive ToolFree : Proc -> Prop :=
  | ToolFree_Idle : ToolFree Idle
  | ToolFree_Return v : ToolFree (Return v)
  | ToolFree_Throw e : ToolFree (Throw e)
  | ToolFree_Then h f g k :
      (∀ v, ToolFree (f v)) → (∀ e, ToolFree (g e)) → ToolFree k →
      ToolFree (Then h f g k)
  | ToolFree_Later job k : ToolFree job → ToolFree k → ToolFree (Later job k).

(** Starting the function and awaiting its promise, with nothing else
    going on. *)
Definition awaitDirectly (fuel : nat) (p : Proc) : Awaited :=
  awaitUserFn fuel (exec p createStepTools).

(** ** Turns of the event loop

    Every microtask a turn of the event loop queues is a piece of the user
    code that ran in that turn, so the turns cannot go on for ever. *)

(** [sub c p]: [c] is an immediate continuation of [p]. *)
Inductive sub : Proc -> Proc -> Prop :=
  | sub_UseTool o fn k h : sub (k h) (UseTool o fn k)
  | sub_Then_fulfilled h f g k v : sub (f v) (Then h f g k)
  | sub_Then_rejected h f g k e : sub (g e) (Then h f g k)
  | sub_Then_k h f g k : sub k (Then h f g k)
  | sub_Later_job job k : sub job (Later job k)
  | sub_Later_k job k : sub k (Later job k).

(** [desc c p]: [c] is a proper piece of [p]. *)
Inductive desc : Proc -> Proc -> Prop :=
  | desc_sub c p : sub c p → desc c p
  | desc_step c m p : desc c m → sub m p → desc c p.

(** [expands q q']: [q'] replaces every job of the queue [q] by proper
    pieces of it. *)
Inductive expands : list Proc -> list Proc -> Prop :=
  | expands_nil : expands [] []
  | expands_cons p q l q' :
      Forall (fun c => desc c p) l → expands q q' → expands (p :: q) (l ++ q').

(** One turn of the event loop on a queue that is not empty. *)
Definition turn (q' q : list Proc) : Prop := q ≠ [] ∧ expands q q'.

(** ** The shape of what [runFn] returns *)

Definition is_single (type : string) (payload : Payload) : Prop :=
  type = "single" ∧ ∃ v, payload = PValue v.

(** ["multi-run"] with an object that has the [data] key or the [error]
    key, one of the two and not the other. *)
Definition is_step_result (type : string) (payload : Payload) : Prop :=
  type = "multi-run" ∧
  ∃ r, payload = PStep r ∧
       ((is_Some (r_data r) ∧ r_error r = None) ∨
        (r_data r = None ∧ is_Some (r_error r))).

Definition is_discovery (type : string) (payload : Payload) : Prop :=
  type = "multi-discovery" ∧ ∃ ops, payload = POps ops.

Definition exactly_one (A B C : Prop) : Prop :=
  (A ∧ ¬ B ∧ ¬ C) ∨ (¬ A ∧ B ∧ ¬ C) ∨ (¬ A ∧ ¬ B ∧ C).

(** ** The shape of the op tree

    Addresses are handed out in call order, and a tool call appends the new
    address to the active array: every array lists ops of the heap in the
    order their tools were called, and no op is in two arrays or twice in
    one. *)

#[global] Instance ArrayRef_eq_dec : EqDecision ArrayRef.
Proof. solve_decision. Defined.

(** [well_formed st]: the arrays hold addresses of the heap, in increasing
    order, no address in two arrays; the active array belongs to an op of
    the heap. *)
Record well_formed (st : State) : Prop := mkWellFormed {
  wf_closed : ∀ r a, a ∈ deref st r → (a < length (heap st))%nat;
  wf_sorted : ∀ r, StronglySorted lt (deref st r);
  wf_tree : ∀ r r' a, a ∈ deref st r → a ∈ deref st r' → r = r';
  wf_active : ∀ p, tickOps st = ChildOps p → (p < length (heap st))%nat
}.

(** [grows st st']: from [st] to [st'] ops were only added, and only at the
    end of the array that is active in [st]. *)
Record grows (st st' : State) : Prop := mkGrows {
  g_heap : (length (heap st) ≤ length (heap st'))%nat;
  g_active : deref st (tickOps st) `prefix_of` deref st' (tickOps st);
  g_others : ∀ r, r ≠ tickOps st → deref st' r = deref st r
}.

(** [same_shape st st']: the tree of [st'] is the tree of [st].  Settling a
    promise, subscribing to one and finishing the user function leave the
    tree as it is. *)
Record same_shape (st st' : State) : Prop := mkSameShape {
  ss_heap : length (heap st') = length (heap st);
  ss_deref : ∀ r, deref st' r = deref st r;
  ss_tickOps : tickOps st' = tickOps st
}.

(** [extends st st']: every array of [st] is the beginning of the same
    array in [st'].  Position paths keep their meaning. *)
Record extends (st st' : State) : Prop := mkExtends {
  e_heap : (length (heap st) ≤ length (heap st'))%nat;
  e_deref : ∀ r, deref st r `prefix_of` deref st' r
}.

(** ** What the replay loop maintains

    Before each pass: the tree is well formed and no thunk is selected; the
    active array is the root array or the [tickOps] of the op the last
    record led to; only ops that a processed record led to have children;
    and every processed record with a path of two indices or more comes
    after a record with its parent's path. *)
Record replay_inv (opStack : OpStack) (st : State) : Prop := mkReplayInv {
  ri_wf : well_formed st;
  ri_pos : (-1 ≤ pos st)%Z;
  ri_none : userFnToRun st = None;
  ri_active :
    ((pos st ≤ 0)%Z ∧ tickOps st = RootOps) ∨
    (∃ incomingOp a node,
        (0 < pos st)%Z ∧
        js_index opStack (pos st - 1) = Some incomingOp ∧
        tickOps st = ChildOps a ∧
        resolve st (allFoundOps st) (opPosition incomingOp) = Some (a, node));
  ri_parents : ∀ b,
    deref st (ChildOps b) ≠ [] →
    ∃ (j : nat) incomingOp node,
      (j < Z.to_nat (pos st))%nat ∧ opStack !! j = Some incomingOp ∧
      resolve st (allFoundOps st) (opPosition incomingOp) = Some (b, node);
  ri_history : ∀ (k : nat) incomingOp q i,
    (k < Z.to_nat (pos st))%nat →
    opStack !! k = Some incomingOp →
    opPosition incomingOp = q ++ [i] → q ≠ [] →
    ∃ (j : nat) incomingOp',
      (j < k)%nat ∧ opStack !! j = Some incomingOp' ∧ opPosition incomingOp' = q
}.

(** ** Invoking twice *)

(** What outlives an invocation on the caller's side: the function and the
    history it supplies. *)
Record Host : Type := mkHost {
  host_fn : JsVal -> Proc;
  host_opStack : OpStack
}.

(** One invocation, with the host as the call leaves it.  [runFn] builds
    its run state afresh with [createStepTools], only reads [opStack]
    (by index, [length], and the copy [[...opPosition, index]]), and keeps
    nothing. *)
Definition invoke (serializeError : JsVal -> Completion) (fuel : nat) (data : JsVal)
    (host : Host) : Invocation * Host :=
  (runFn serializeError fuel (host_fn host) data (host_opStack host), host).

(** * Example functions and histories *)

(** A [serializeError] that turns an Error into the plain object of its
    name and message and leaves other values alone. *)
Definition plainSerializer (e : JsVal) : Completion :=
  match e with
  | VError name message => Normal (VObject [("name", VStr name); ("message", VStr message)])
  | v => Normal v
  end.

(** A [serializeError] that always throws. *)
Definition brokenSerializer (e : JsVal) : Completion :=
  Abrupt (VError "TypeError" "Converting circular structure").

Definition stepA : OpInfo := mkOpInfo "Step" "a" "a" VUndefined.
Definition stepB : OpInfo := mkOpInfo "Step" "b" "b" VUndefined.
Definition waitC : OpInfo := mkOpInfo "WaitForEvent" "c" "c" (VStr "1h").

(** [async ({ tools }) => {
       await tools.run("a", () => undefined);
       return await tools.run("b", () => { throw new Error("boom") }) }] *)
Definition chained (event : JsVal) : Proc :=
  UseTool stepA (Some (Fulfils VUndefined)) (fun a =>
    Then a
      (fun _ =>
         UseTool stepB (Some (Rejects (VError "Error" "boom"))) (fun b =>
           Then b Return Throw Idle))
      Throw Idle).

(** [async ({ tools }) => {
       const c = tools.waitForEvent("c", "1h");
       const a = tools.run("a", () => undefined);
       await c; return await a }] *)
Definition parallel (event : JsVal) : Proc :=
  UseTool waitC None (fun c =>
    UseTool stepA (Some (Fulfils VUndefined)) (fun a =>
      Then c (fun x => Then a (fun y => Return y) Throw Idle) Throw Idle)).

(** [(event) => event.x + 1], for a numeric [x] *)
Definition plain (event : JsVal) : Proc :=
  match event with
  | VObject fields =>
      match get_field "x" fields with
      | Some (VNum x) => Return (VNum (x + 1))
      | _ => Throw (VError "TypeError" "x is not a number")
      end
  | _ => Throw (VError "TypeError" "Cannot read properties of undefined")
  end.

(** [async ({ tools }) => { await undefined; tools.run("a", () => undefined);
                            return 1 }] *)
Definition lateTool (event : JsVal) : Proc :=
  Later (UseTool stepA (Some (Fulfils VUndefined)) (fun _ => Return (VNum 1))) Idle.

Definition ranA : IncomingOp := mkIncomingOp [0%Z] false VNull VUndefined.
Definition runA : IncomingOp := mkIncomingOp [0%Z] true VUndefined VUndefined.
Definition runB : IncomingOp := mkIncomingOp [0%Z; 0%Z] true VUndefined VUndefined.
Definition failedB : IncomingOp :=
  mkIncomingOp [0%Z; 0%Z] false VUndefined
    (VObject [("name", VStr "Error"); ("message", VStr "boom")]).
Definition strayRecord : IncomingOp := mkIncomingOp [7%Z] false (VNum 1) VUndefined.
Definition eventX4 : JsVal := VObject [("x", VNum 4)].

(** The state in which the replay loop of [chained] arrives at the second
    record of a history that starts with [ranA]. *)
Definition afterRanA : State :=
  match replay chained VNull [ranA] with
  | LoopDone st => st
  | _ => start chained VNull
  end.

(** * The function object, the client, the landing page and the Remix handler

    The methods of [InngestFunction] besides [runFn], the client [Inngest]
    (core/Inngest.ts), what the landing page's [FunctionBlock] computes from
    a function's config, and the request handler of [RemixCommHandler]
    (remix.ts).  What these call outside the sources at hand is a parameter:
    [slugify], the object [queryKeys], the [URL] constructor and [href],
    [JSON.stringify], the axios client, and [register] and [runStep] of
    [InngestCommHandler]. *)

(** ** Values shared by these parts *)

(** A call that returns [a], or throws [e]. *)
Inductive Try (A : Type) : Type :=
  | Ok (a : A)
  | Thrown (e : JsVal).

Arguments Ok {A} a.
Arguments Thrown {A} e.

(** Whether a string that may be [undefined] or [null] is truthy. *)
Definition truthy (s : option string) : bool :=
  match s with
  | Some s => negb (String.eqb s "")
  | None => false
  end.

(** [s || ""] *)
Definition or_empty (s : option string) : string :=
  match s with
  | Some s => s
  | None => ""
  end.

(** Writing a property of an object: the value of an existing key is
    replaced where the key is, a new key goes last. *)
Fixpoint set_field (key : string) (v : JsVal) (fields : list (string * JsVal))
    : list (string * JsVal) :=
  match fields with
  | [] => [(key, v)]
  | (k, x) :: rest =>
      if String.eqb k key then (key, v) :: rest else (k, x) :: set_field key v rest
  end.

(** A [URL]: what comes before the query, and [searchParams]. *)
Record URL : Type := mkURL {
  location : string;
  searchParams : list (string * string)
}.

(** [URLSearchParams.get]: the value of the first pair with that name, or
    [null]. *)
Fixpoint params_get (key : string) (params : list (string * string)) : option string :=
  match params with
  | [] => None
  | (k, v) :: rest => if String.eqb k key then Some v else params_get key rest
  end.

Definition params_delete (key : string) (params : list (string * string))
    : list (string * string) :=
  filter (fun kv => negb (String.eqb kv.1 key) = true) params.

(** [URLSearchParams.set]: the first pair with that name takes the value
    and the other pairs with that name go; without such a pair, a new one is
    appended. *)
Fixpoint params_set (key value : string) (params : list (string * string))
    : list (string * string) :=
  match params with
  | [] => [(key, value)]
  | (k, v) :: rest =>
      if String.eqb k key then (key, value) :: params_delete key rest
      else (k, v) :: params_set key value rest
  end.

(** [url.searchParams.set(key, value)] *)
Definition url_set (key value : string) (url : URL) : URL :=
  mkURL (location url) (params_set key value (searchParams url)).

(** The platform's [URL] class: [url.href], and [new URL(url, base)], which
    throws on what it cannot parse. *)
Record UrlApi : Type := mkUrlApi {
  href : URL -> string;
  newURL : string -> option string -> Try URL
}.

(** [queryKeys] of helpers/consts.ts. *)
Record QueryKeys : Type := mkQueryKeys {
  FnId : string;
  StepId : string
}.

(** ** [InngestFunction]: [id], [getConfig] *)

(** [FunctionOptions]: [name], the optional [id], and the other options. *)
Record FunctionOptions : Type := mkFunctionOptions {
  opt_name : string;
  opt_id : option string;
  opt_rest : list (string * JsVal)
}.

(** [FunctionTrigger]: [{ event }] or [{ cron }]. *)
Record FunctionTrigger : Type := mkFunctionTrigger {
  trigger_event : option string;
  trigger_cron : option string
}.

(** The private fields [#opts], [#trigger] and [#fn] of an
    [InngestFunction]; [F] is the type of what it was given to run. *)
Record InngestFunction (F : Type) : Type := mkInngestFunction {
  this_opts : FunctionOptions;
  this_trigger : FunctionTrigger;
  this_fn : F
}.

Arguments mkInngestFunction {F} _ _ _.
Arguments this_opts {F} _.
Arguments this_trigger {F} _.
Arguments this_fn {F} _.

(** An entry of [steps] in a config: [id], [name] and [runtime]. *)
Record StepConfig : Type := mkStepConfig {
  step_id : string;
  step_name : string;
  runtime_type : string;
  runtime_url : string
}.

(** [FunctionConfig]: the other options spread from [#opts], then [id],
    [name], [triggers] and [steps]. *)
Record FunctionConfig : Type := mkFunctionConfig {
  config_rest : list (string * JsVal);
  config_id : string;
  config_name : string;
  config_triggers : list FunctionTrigger;
  config_steps : list (string * StepConfig)
}.

Module InngestFunction.

(** [static stepId = "step"] *)
Definition stepId : string := "step".

Section Methods.

Context {F : Type}.

(** [slugify] of helpers/strings.ts. *)
Variable slugify : string -> string.

(** [#generateId(prefix)]: [slugify([prefix || "", this.#opts.name].join("-"))] *)
Definition generateId (prefix : option string) (this : InngestFunction F) : string :=
  slugify (or_empty prefix +:+ "-" +:+ opt_name (this_opts this)).

(** [id(prefix)]: the id, generated and stored in [#opts] when [#opts.id]
    is falsy; returned with the function object as the call leaves it. *)
Definition id (prefix : option string) (this : InngestFunction F)
    : string * InngestFunction F :=
  let this :=
    if negb (truthy (opt_id (this_opts this))) then
      mkInngestFunction
        (mkFunctionOptions (opt_name (this_opts this))
                           (Some (generateId prefix this))
                           (opt_rest (this_opts this)))
        (this_trigger this) (this_fn this)
    else this in
  (or_empty (opt_id (this_opts this)), this).

(** [get name()] *)
Definition name (this : InngestFunction F) : string := opt_name (this_opts this).

(** [getConfig(baseUrl, appPrefix)].  [stepUrl] is a copy of [baseUrl]
    ([new URL(baseUrl.href)]). *)
Definition getConfig (api : UrlApi) (queryKeys : QueryKeys) (baseUrl : URL)
    (appPrefix : option string) (this : InngestFunction F)
    : FunctionConfig * InngestFunction F :=
  let '(fnId, this) := id appPrefix this in
  let stepUrl := baseUrl in
  let stepUrl := url_set (FnId queryKeys) fnId stepUrl in
  let stepUrl := url_set (StepId queryKeys) stepId stepUrl in
  (mkFunctionConfig (opt_rest (this_opts this)) fnId (name this) [this_trigger this]
     [(stepId, mkStepConfig stepId stepId "http" (href api stepUrl))],
   this).

End Methods.

End InngestFunction.

(** ** The client [Inngest] *)

(** The fields of an [Inngest] instance (its axios client is a parameter of
    [send]). *)
Record Inngest : Type := mkInngest {
  inngest_name : string;
  eventKey : string;
  inngestBaseUrl : URL;
  inngestApiUrl : URL
}.

(** What [send] uses of an [AxiosResponse]. *)
Record AxiosResponse : Type := mkAxiosResponse {
  response_status : Z;
  response_data : JsVal
}.

(** [await this.client.post(...)]: a response, whatever its status
    ([validateStatus: () => true]), or what axios throws when no response
    comes. *)
Inductive Posted : Type :=
  | Responds (response : AxiosResponse)
  | Fails (e : JsVal).

(** The second argument of [send]: one payload, or an array of payloads. *)
Inductive Payloads : Type :=
  | OnePayload (fields : list (string * JsVal))
  | ManyPayloads (items : list JsVal).

(** The own properties that [{ ...payload }] copies: those of an object, or
    the indices of an array. *)
Definition spread (payload : Payloads) : list (string * JsVal) :=
  match payload with
  | OnePayload fields => fields
  | ManyPayloads items => imap (fun (i : nat) item => (pretty i, item)) items
  end.

(** [new InngestStep(fn)] *)
Record InngestStep (F : Type) : Type := mkInngestStep {
  step_fn : F
}.

Arguments mkInngestStep {F} _.

Module Inngest.

Definition nameError : JsVal :=
  VError "Error" "A name must be passed to create an Inngest instance.".

Definition eventKeyError : JsVal :=
  VError "Error" "An event key must be passed to create an Inngest instance.".

(** [new Inngest(name, eventKey, { inngestBaseUrl })], with the default
    ["https://inn.gs/"] for an absent [inngestBaseUrl]. *)
Definition new (api : UrlApi) (name eventKey : string) (inngestBaseUrl : option string)
    : Try Inngest :=
  if String.eqb name "" then Thrown nameError
  else if String.eqb eventKey "" then Thrown eventKeyError
  else
    match newURL api (default "https://inn.gs/" inngestBaseUrl) None with
    | Thrown e => Thrown e
    | Ok baseUrl =>
        match newURL api ("e/" +:+ eventKey) (Some (href api baseUrl)) with
        | Thrown e => Thrown e
        | Ok apiUrl => Ok (mkInngest name eventKey baseUrl apiUrl)
        end
    end.

Section Requests.

(** [JSON.stringify] inside a template literal. *)
Variable stringify : JsVal -> string.

(** The [switch] of [#getResponseError]. *)
Definition errorMessage (response : AxiosResponse) : string :=
  let status := response_status response in
  if (status =? 401)%Z then "Event key Not Found"
  else if (status =? 400)%Z then "Cannot process event payload"
  else if (status =? 403)%Z then "Forbidden"
  else if (status =? 404)%Z then "Event key not found"
  else if (status =? 406)%Z then stringify (response_data response)
  else if (status =? 409)%Z || (status =? 412)%Z then "Event transformation failed"
  else if (status =? 413)%Z then "Event payload too large"
  else if (status =? 500)%Z then "Internal server error"
  else "Unknown error".

(** [#getResponseError(response)] *)
Definition getResponseError (response : AxiosResponse) : JsVal :=
  VError "Error"
    ("Inngest API Error: " +:+ pretty (response_status response) +:+ " " +:+
     errorMessage response).

(** [{ ...payload, name }] *)
Definition requestBody (name : string) (payload : Payloads) : list (string * JsVal) :=
  set_field "name" (VStr name) (spread payload).

(** [send(name, payload)], for the axios client [post]. *)
Definition send (api : UrlApi) (post : string -> list (string * JsVal) -> Posted)
    (this : Inngest) (name : string) (payload : Payloads) : Try unit :=
  match post (href api (inngestApiUrl this)) (requestBody name payload) with
  | Fails e => Thrown e
  | Responds response =>
      if (200 <=? response_status response)%Z && (response_status response <? 300)%Z
      then Ok tt
      else Thrown (getResponseError response)
  end.

End Requests.

(** [createFunction(nameOrOpts, event, fn)] *)
Definition createFunction {F : Type} (nameOrOpts : string + FunctionOptions)
    (event : string) (fn : F) : InngestFunction (list (string * InngestStep F)) :=
  mkInngestFunction
    (match nameOrOpts with
     | inl name => mkFunctionOptions name None []
     | inr opts => opts
     end)
    (mkFunctionTrigger (Some event) None)
    [("step", mkInngestStep fn)].

End Inngest.

(** ** The landing page: [FunctionBlock] *)

Module FunctionBlock.

(** [config.triggers[0]]; reading [cron] or [event] of a trigger that is
    not there throws. *)
Definition firstTrigger (triggers : list FunctionTrigger) : Try FunctionTrigger :=
  match triggers with
  | trigger :: _ => Ok trigger
  | [] => Thrown typeError
  end.

(** The memo [type]: ["cron"] or ["event"]. *)
Definition type (triggers : list FunctionTrigger) : Try string :=
  match firstTrigger triggers with
  | Thrown e => Thrown e
  | Ok trigger => if truthy (trigger_cron trigger) then Ok "cron" else Ok "event"
  end.

(** The memo [expression]: [trigger.cron || trigger.event || ""] *)
Definition expression (triggers : list FunctionTrigger) : Try string :=
  match firstTrigger triggers with
  | Thrown e => Thrown e
  | Ok trigger =>
      if truthy (trigger_cron trigger) then Ok (or_empty (trigger_cron trigger))
      else if truthy (trigger_event trigger) then Ok (or_empty (trigger_event trigger))
      else Ok ""
  end.

(** The memo [hasErrors]: [Boolean(config.errors?.size)] *)
Definition hasErrors (errors : option (list string)) : bool :=
  match errors with
  | Some errs => negb (length errs =? 0)%nat
  | None => false
  end.

End FunctionBlock.

(** ** The Remix handler *)

Record Request : Type := mkRequest {
  req_url : string;
  req_host : option string;      (* [req.headers.get("host")] *)
  req_method : string;
  req_json : Try JsVal           (* [await req.json()] *)
}.

(** [new Response(body, { status })] *)
Record Response : Type := mkResponse {
  res_body : option string;
  res_status : Z
}.

(** What [this.register(reqUrl)] resolves to. *)
Record Registered : Type := mkRegistered {
  reg_status : Z;
  reg_message : string
}.

(** What [this.runStep(fnId, stepId, body)] resolves to. *)
Record StepRes : Type := mkStepRes {
  stepRes_status : Z;
  stepRes_error : JsVal;
  stepRes_body : JsVal
}.

(** The calls a request makes on the handler's own methods. *)
Inductive Call : Type :=
  | CallRegister (reqUrl : URL)
  | CallRunStep (fnId stepId : string) (body : JsVal).

(** How the handler's promise ends: with a response, rejected by the zod
    schema, or rejected with what [req.json()], [register] or [runStep]
    threw. *)
Inductive Handled : Type :=
  | Responded (response : Response)
  | RejectedBySchema
  | Rejection (e : JsVal).

Module Remix.

(** [z.string().min(1)] on what [searchParams.get] gave. *)
Definition nonEmptyString (v : option string) : option string :=
  match v with
  | Some s => if String.eqb s "" then None else Some s
  | None => None
  end.

Section Handler.

Variable api : UrlApi.
Variable queryKeys : QueryKeys.

(** [JSON.stringify], which gives [undefined] for [undefined]. *)
Variable stringify : JsVal -> option string.

(** [this.register] and [this.runStep] of [InngestCommHandler]. *)
Variable register : URL -> Try Registered.
Variable runStep : string -> string -> JsVal -> Try StepRes.

(** The function returned by [createHandler()], with the calls it makes. *)
Definition createHandler (req : Request) : Handled * list Call :=
  match newURL api (req_url req) (Some ("https://" +:+ or_empty (req_host req))) with
  | Thrown err => (Responded (mkResponse (stringify err) 500), [])
  | Ok reqUrl =>
      if String.eqb (req_method req) "PUT" then
        match register reqUrl with
        | Thrown e => (Rejection e, [CallRegister reqUrl])
        | Ok r =>
            (Responded
               (mkResponse (stringify (VObject [("message", VStr (reg_message r))]))
                           (reg_status r)),
             [CallRegister reqUrl])
        end
      else if String.eqb (req_method req) "POST" then
        match nonEmptyString (params_get (FnId queryKeys) (searchParams reqUrl)),
              nonEmptyString (params_get (StepId queryKeys) (searchParams reqUrl)) with
        | Some fnId, Some stepId =>
            match req_json req with
            | Thrown e => (Rejection e, [])
            | Ok body =>
                match runStep fnId stepId body with
                | Thrown e => (Rejection e, [CallRunStep fnId stepId body])
                | Ok stepRes =>
                    (Responded
                       (if (stepRes_status stepRes =? 500)%Z
                        then mkResponse (stringify (stepRes_error stepRes))
                                        (stepRes_status stepRes)
                        else mkResponse (stringify (stepRes_body stepRes))
                                        (stepRes_status stepRes)),
                     [CallRunStep fnId stepId body])
                end
            end
        | _, _ => (RejectedBySchema, [])
        end
      else (Responded (mkResponse None 405), [])
  end.

End Handler.

End Remix.

(** ** Examples for these parts *)

(** A stand-in for [slugify]: lower-case letters, and a dash for a space. *)
Definition lower (c : ascii) : ascii :=
  let n := Ascii.nat_of_ascii c in
  if Ascii.eqb c " "%char then "-"%char
  else if (65 <=? n)%nat && (n <=? 90)%nat then Ascii.ascii_of_nat (n + 32)
  else c.

Fixpoint dashed (s : string) : string :=
  match s with
  | EmptyString => EmptyString
  | String c rest => String (lower c) (dashed rest)
  end.

(** The pieces of [s] between the occurrences of [c]. *)
Fixpoint split_on (c : ascii) (s : string) : list string :=
  match s with
  | EmptyString => [EmptyString]
  | String a rest =>
      if Ascii.eqb a c then EmptyString :: split_on c rest
      else match split_on c rest with
           | w :: ws => String a w :: ws
           | [] => [String a EmptyString]
           end
  end.

Fixpoint joined (sep : string) (l : list string) : string :=
  match l with
  | [] => ""
  | [x] => x
  | x :: rest => x +:+ sep +:+ joined sep rest
  end.

(** A small [URL] class for the examples: [href] prints the query after a
    question mark; the constructor needs a colon in what it is given (its
    base is not used then), or a base, and reads the query back. *)
Definition printQuery (url : URL) : string :=
  match searchParams url with
  | [] => location url
  | params =>
      location url +:+ "?" +:+ joined "&" ((fun kv => kv.1 +:+ "=" +:+ kv.2) <$> params)
  end.

Definition readPair (s : string) : string * string :=
  match split_on "="%char s with
  | k :: v :: _ => (k, v)
  | k :: [] => (k, "")
  | [] => ("", "")
  end.

Definition readQuery (s : string) : URL :=
  match split_on "?"%char s with
  | loc :: q :: _ => mkURL loc (readPair <$> split_on "&"%char q)
  | loc :: [] => mkURL loc []
  | [] => mkURL "" []
  end.

Definition hasColon (s : string) : bool :=
  negb (length (split_on ":"%char s) =? 1)%nat.

Definition exampleUrls : UrlApi :=
  mkUrlApi printQuery
    (fun url base =>
       if hasColon url then Ok (readQuery url)
       else match base with
            | Some b =>
                if hasColon b then Ok (readQuery (b +:+ url))
                else Thrown (VError "TypeError" "Invalid URL")
            | None => Thrown (VError "TypeError" "Invalid URL")
            end).

Definition exampleKeys : QueryKeys := mkQueryKeys "fnId" "stepId".

Definition exampleBase : URL := mkURL "https://example.com/api/inngest" [].

(** [inngest.createFunction("Send Welcome", "user/created", fn)] *)
Definition sendWelcome : InngestFunction (list (string * InngestStep (JsVal -> Proc))) :=
  Inngest.createFunction (inl "Send Welcome") "user/created" plain.

(** * Lemmas and theorems *)

(** ** What user code and the yield leave alone

    User code reaches the run state only through the step tools: it never
    moves the cursor, never changes which array [state.tickOps] refers to and
    never selects a thunk. *)

Lemma same_control_refl st : same_control st st.
Proof. by split. Qed.

Lemma same_control_trans st1 st2 st3 :
  same_control st1 st2 → same_control st2 st3 → same_control st1 st3.
Proof. intros [] []. split; congruence. Qed.

Lemma useTool_same_control o fn st : same_control st (useTool o fn st).2.
Proof. unfold useTool. destruct (tickOps st) eqn:E; by split. Qed.

Lemma subscribe_same_control h r st : same_control st (subscribe h r st).
Proof.
  unfold subscribe. destruct (heap st !! h) as [node|]; [|by split].
  destruct (t_promise node); by split.
Qed.

Lemma finish_same_control c st : same_control st (finish c st).
Proof. unfold finish. destruct (userFnPromise st); by split. Qed.

Lemma settle_same_control a c st : same_control st (settle a c st).
Proof.
  unfold settle. destruct (heap st !! a) as [node|]; [|by split].
  destruct (t_promise node); by split.
Qed.

Lemma exec_same_control p : ∀ st, same_control st (exec p st).
Proof.
  induction p as [| v | e | o fn k IH | h f _ g _ k IH | job _ k IH]; intros st; simpl.
  - apply same_control_refl.
  - apply finish_same_control.
  - apply finish_same_control.
  - pose proof (useTool_same_control o fn st) as Hu.
    destruct (useTool o fn st) as [a st1]. simpl in Hu.
    eapply same_control_trans; [exact Hu | apply IH].
  - eapply same_control_trans; [apply subscribe_same_control | apply IH].
  - eapply same_control_trans; [| apply IH]. by split.
Qed.

Lemma foldl_exec_same_control jobs : ∀ st,
  same_control st (foldl (fun s job => exec job s) st jobs).
Proof.
  induction jobs as [| job jobs IH]; intros st; simpl.
  - apply same_control_refl.
  - eapply same_control_trans; [apply exec_same_control | apply IH].
Qed.

Lemma resolveNextTick_same_control st : same_control st (resolveNextTick st).
Proof.
  unfold resolveNextTick.
  eapply same_control_trans; [| apply foldl_exec_same_control]. by split.
Qed.

(** The tools flag is only ever raised. *)
Lemma exec_hasUsedTools_mono p : ∀ st,
  hasUsedTools st = true → hasUsedTools (exec p st) = true.
Proof.
  induction p as [| v | e | o fn k IH | h f _ g _ k IH | job _ k IH]; intros st Hst; simpl.
  - done.
  - unfold finish. by destruct (userFnPromise st).
  - unfold finish. by destruct (userFnPromise st).
  - destruct (useTool o fn st) as [a st1] eqn:E. apply IH.
    unfold useTool in E. destruct (tickOps st); by inversion E.
  - apply IH. unfold subscribe. destruct (heap st !! h) as [node|]; [|done].
    by destruct (t_promise node).
  - by apply IH.
Qed.

(** ** The replay loop, pass by pass *)

(** The tree walk moves no cursor and keeps the active array and the root
    array. *)
Lemma walk_pos incomingOp path : ∀ targetOps currentOp st st' currentOp',
  walk incomingOp path targetOps currentOp st = Walked st' currentOp' →
  pos st' = pos st ∧ tickOps st' = tickOps st ∧ allFoundOps st' = allFoundOps st.
Proof.
  induction path as [| idx rest IH]; intros targetOps currentOp st st' currentOp' H;
    simpl in H.
  - by inversion H.
  - destruct (js_index targetOps idx ≫= _) as [[a node]|]; [|done].
    destruct rest as [| idx' rest'].
    + simpl in H. destruct (run incomingOp).
      * destruct (t_fn node); [|done]. by inversion H.
      * destruct (negb (is_undefined (data incomingOp))); inversion H; subst;
          unfold settle; destruct (heap st !! a) as [n|]; try done;
          by destruct (t_promise n).
    + simpl negb in H. cbv iota in H. by apply IH in H.
Qed.

Lemma iteration_next_pos opStack st st' :
  iteration opStack st = Next st' → pos st' = pos st.
Proof.
  unfold iteration. destruct (0 <=? pos st)%Z; [|by inversion 1].
  destruct (js_index opStack (pos st)) as [incomingOp|]; [|done].
  destruct (walk _ _ _ _ _) as [st1 currentOp|] eqn:W; [|done].
  destruct (userFnToRun st1); [done|]. destruct currentOp; [|done].
  inversion 1; subst. simpl. by apply walk_pos in W as [? _].
Qed.

(** The fuel [runFn] hands to the loop is never used up: the cursor starts
    at -1 and every pass moves it one record closer to the end. *)
Lemma do_while_fuel opStack : ∀ fuel st,
  (Z.of_nat (length opStack) - pos st ≤ Z.of_nat fuel)%Z → (0 < fuel)%nat →
  do_while fuel opStack st ≠ LoopOutOfFuel.
Proof.
  induction fuel as [| fuel IH]; intros st Hle Hpos; [lia|].
  simpl. destruct (iteration opStack st) as [st1 | st1 | e] eqn:It; [|done|done].
  apply iteration_next_pos in It.
  pose proof (sc_pos _ _ (resolveNextTick_same_control st1)) as Hp.
  destruct (_ <? _)%Z eqn:Lt; [|done]. simpl in Lt.
  apply IH; simpl; lia.
Qed.

(** The [for] loop in one step: where the path leads decides what happens. *)
Lemma walk_spec incomingOp path : ∀ targetOps currentOp st,
  path ≠ [] →
  walk incomingOp path targetOps currentOp st =
    match resolve st targetOps path with
    | None => WalkThrew typeError
    | Some (a, node) =>
        if run incomingOp then
          match t_fn node with
          | None => WalkThrew badStackNoFn
          | Some fn => Walked (set_userFnToRun (Some fn) st) (Some a)
          end
        else Walked (settle a (replayed incomingOp) st) (Some a)
    end.
Proof.
  induction path as [| idx rest IH]; intros targetOps currentOp st Hne; [done|].
  simpl. destruct (js_index targetOps idx ≫= _) as [[a node]|] eqn:E; [|done].
  destruct rest as [| idx' rest'].
  - assert (js_index targetOps idx = Some a) as Ha.
    { apply bind_Some in E as (a' & Ha & E).
      by apply fmap_Some in E as (n & _ & [= -> ->]). }
    simpl. rewrite Ha. destruct (run incomingOp); [by destruct (t_fn node)|].
    unfold replayed. by destruct (negb (is_undefined (data incomingOp))).
  - simpl negb. cbv iota. by apply IH.
Qed.

Lemma settle_userFnToRun a c st : userFnToRun (settle a c st) = userFnToRun st.
Proof. apply settle_same_control. Qed.

(** One pass of the loop body over the record under the cursor. *)
Lemma iteration_spec opStack st incomingOp :
  (0 ≤ pos st)%Z →
  js_index opStack (pos st) = Some incomingOp →
  userFnToRun st = None →
  iteration opStack st =
    match resolve st (allFoundOps st) (opPosition incomingOp) with
    | None =>
        Throws (match opPosition incomingOp with
                | [] => badStackChanged
                | _ :: _ => typeError
                end)
    | Some (a, node) =>
        if run incomingOp then
          match t_fn node with
          | None => Throws badStackNoFn
          | Some fn => Break (set_userFnToRun (Some fn) st)
          end
        else Next (set_tickOps (ChildOps a) (settle a (replayed incomingOp) st))
    end.
Proof.
  intros Hpos Hinc Hnone. unfold iteration.
  rewrite (proj2 (Z.leb_le _ _) Hpos), Hinc.
  destruct (opPosition incomingOp) as [| idx rest] eqn:Hpath.
  - simpl. by rewrite Hnone.
  - rewrite walk_spec by done.
    destruct (resolve st (allFoundOps st) (idx :: rest)) as [[a node]|]; [|done].
    destruct (run incomingOp).
    + by destruct (t_fn node).
    + by rewrite settle_userFnToRun, Hnone.
Qed.

Lemma iteration_drifted opStack st incomingOp :
  (0 ≤ pos st)%Z →
  js_index opStack (pos st) = Some incomingOp →
  userFnToRun st = None →
  drifted st incomingOp →
  ∃ e, iteration opStack st = Throws e ∧ is_drift_error e.
Proof.
  intros Hpos Hinc Hnone Hd. rewrite (iteration_spec _ _ incomingOp) by done.
  destruct Hd as [-> | (Hrun & a & node & -> & Hfn)].
  - eexists; split; [done|]. unfold is_drift_error. destruct (opPosition incomingOp); auto.
  - rewrite Hrun, Hfn. eexists; split; [done|]. unfold is_drift_error. auto.
Qed.

Lemma iteration_break opStack st st' :
  iteration opStack st = Break st' → is_Some (userFnToRun st').
Proof.
  unfold iteration. destruct (0 <=? pos st)%Z; [|done].
  destruct (js_index opStack (pos st)); [|done].
  destruct (walk _ _ _ _ _) as [st1 currentOp|]; [|done].
  destruct (userFnToRun st1) eqn:E; [|by destruct currentOp].
  inversion 1; subst. by rewrite E.
Qed.

(** Below the end of [pre], the loop sees only [pre]. *)
Lemma iteration_app pre rest st :
  (pos st < Z.of_nat (length pre))%Z →
  iteration (pre ++ rest) st = iteration pre st.
Proof.
  intros Hlt. unfold iteration. destruct (0 <=? pos st)%Z eqn:Hle; [|done].
  apply Z.leb_le in Hle.
  replace (js_index (pre ++ rest) (pos st)) with (js_index pre (pos st)); [done|].
  unfold js_index. rewrite (proj2 (Z.leb_le _ _) Hle).
  symmetry. apply lookup_app_l. lia.
Qed.

(** If the loop runs through all of [pre] without selecting a thunk, then on
    a longer history it arrives, in the same state, at the record that
    follows [pre]. *)
Lemma do_while_app pre rest : ∀ fuel st st',
  rest ≠ [] →
  (pos st < Z.of_nat (length pre))%Z →
  do_while fuel pre st = LoopDone st' →
  userFnToRun st' = None →
  pos st' = Z.of_nat (length pre) ∧
  ∃ left, ∀ extra,
    do_while (fuel + extra) (pre ++ rest) st = do_while (left + extra) (pre ++ rest) st'.
Proof.
  induction fuel as [| fuel IH]; intros st st' Hrest Hlt Hdone Hnone; [done|].
  simpl in Hdone.
  destruct (iteration pre st) as [st1 | st1 | e] eqn:It; [| |done].
  - pose proof (iteration_next_pos _ _ _ It) as Hp1.
    pose proof (sc_pos _ _ (resolveNextTick_same_control st1)) as Hp2.
    destruct (_ <? _)%Z eqn:Lt; simpl in Lt.
    + apply Z.ltb_lt in Lt.
      edestruct IH as (Hpos' & left & Heq); [exact Hrest | | exact Hdone | exact Hnone |].
      { simpl. lia. }
      split; [done|]. exists left. intros extra. simpl Nat.add. cbn [do_while].
      rewrite iteration_app, It by done. simpl pos.
      rewrite length_app.
      destruct (_ <? _)%Z eqn:Lt'; [|apply Z.ltb_ge in Lt'; lia].
      apply Heq.
    + apply Z.ltb_ge in Lt. inversion Hdone; subst st'. simpl.
      split; [lia|]. exists fuel. intros extra. simpl Nat.add. cbn [do_while].
      rewrite iteration_app, It by done. simpl pos. rewrite length_app.
      destruct (_ <? _)%Z eqn:Lt'; [done|].
      apply Z.ltb_ge in Lt'. destruct rest; [done|]. simpl in Lt'. lia.
  - inversion Hdone; subst st'. apply iteration_break in It as [t Ht]. congruence.
Qed.

(** ** The step-function path: drift and the selected thunk *)

Lemma start_pos fn data : pos (start fn data) = (-1)%Z.
Proof. unfold start. by rewrite (sc_pos _ _ (exec_same_control _ _)). Qed.

Lemma start_userFnToRun fn data : userFnToRun (start fn data) = None.
Proof. unfold start. by rewrite (sc_userFnToRun _ _ (exec_same_control _ _)). Qed.

Lemma runFn_selects serializeError fuel fn data opStack t :
  selects fn data opStack t →
  runFn serializeError fuel fn data opStack = runStep serializeError t.
Proof.
  intros (Hused & st & Hloop & Ht). unfold runFn. fold (start fn data).
  rewrite Hused. simpl negb. cbv iota. fold (replay fn data opStack). by rewrite Hloop, Ht.
Qed.

Lemma runFn_exhausts serializeError fuel fn data opStack st :
  exhausts fn data opStack st →
  runFn serializeError fuel fn data opStack =
    quiet (Returned "multi-discovery" (POps (discoveredOps opStack st))).
Proof.
  intros (Hused & Hloop & Ht). unfold runFn. fold (start fn data).
  rewrite Hused. simpl negb. cbv iota. fold (replay fn data opStack). by rewrite Hloop, Ht.
Qed.

(** The loop, record by record.  With an empty history it yields once and
    ends; a record that is replayed takes the loop one pass further; a run
    record whose op has a thunk selects that thunk, whatever follows it. *)
Lemma exhausts_nil fn data :
  hasUsedTools (start fn data) = true →
  exhausts fn data [] (set_pos 0 (resolveNextTick (start fn data))).
Proof.
  intros Huses. split; [done|].
  pose proof (resolveNextTick_same_control (start fn data)) as [Hp _ Hu].
  unfold replay. simpl. unfold iteration. rewrite start_pos. simpl.
  rewrite Hp, start_pos. simpl. split; [done|]. by rewrite Hu, start_userFnToRun.
Qed.

Lemma replay_snoc fn data pre incomingOp post st :
  exhausts fn data pre st →
  pos st = Z.of_nat (length pre) ∧
  js_index (pre ++ incomingOp :: post) (pos st) = Some incomingOp ∧
  ∃ left,
    replay fn data (pre ++ incomingOp :: post) =
      do_while (S (left + length post)) (pre ++ incomingOp :: post) st.
Proof.
  intros (Hused & Hloop & Hnone). unfold replay in Hloop.
  assert (pos (start fn data) < Z.of_nat (length pre))%Z as Hlt
    by (rewrite start_pos; lia).
  destruct (do_while_app pre (incomingOp :: post) _ _ _ ltac:(done) Hlt Hloop Hnone)
    as (Hpos & left & Heq).
  split; [done|]. split.
  { unfold js_index. rewrite Hpos. rewrite (proj2 (Z.leb_le _ _)) by lia.
    rewrite Nat2Z.id. by rewrite list_lookup_middle. }
  exists left. unfold replay. rewrite length_app.
  replace (S (length pre + length (incomingOp :: post)))
    with (S (length pre) + length (incomingOp :: post))%nat by done.
  rewrite Heq. simpl length. by rewrite Nat.add_succ_r.
Qed.

Lemma run_record_selects fn data pre incomingOp post st a node t :
  exhausts fn data pre st →
  run incomingOp = true →
  resolve st (allFoundOps st) (opPosition incomingOp) = Some (a, node) →
  t_fn node = Some t →
  selects fn data (pre ++ incomingOp :: post) t.
Proof.
  intros Hex Hrun Hres Hfn.
  destruct (replay_snoc _ _ _ incomingOp post _ Hex) as (Hpos & Hinc & left & Heq).
  destruct Hex as (Hused & _ & Hnone). split; [done|].
  exists (set_userFnToRun (Some t) st). split; [|done].
  rewrite Heq. cbn [do_while].
  rewrite (iteration_spec _ _ incomingOp) by (done || lia).
  by rewrite Hres, Hrun, Hfn.
Qed.

Lemma replayed_record_continues fn data pre incomingOp st a node :
  exhausts fn data pre st →
  run incomingOp = false →
  resolve st (allFoundOps st) (opPosition incomingOp) = Some (a, node) →
  exhausts fn data (pre ++ [incomingOp])
    (set_pos (pos st + 1)
       (resolveNextTick (set_tickOps (ChildOps a) (settle a (replayed incomingOp) st)))).
Proof.
  intros Hex Hrun Hres.
  destruct (replay_snoc _ _ _ incomingOp [] _ Hex) as (Hpos & Hinc & left & Heq).
  destruct Hex as (Hused & _ & Hnone). split; [done|].
  pose proof (resolveNextTick_same_control
                (set_tickOps (ChildOps a) (settle a (replayed incomingOp) st)))
    as [Hp _ Hu].
  pose proof (settle_same_control a (replayed incomingOp) st) as [Hp' _ Hu'].
  simpl in Hp, Hu. split.
  - rewrite Heq. cbn [do_while].
    rewrite (iteration_spec _ _ incomingOp) by (done || lia).
    rewrite Hres, Hrun. simpl pos. rewrite Hp, Hp', length_app. simpl length.
    rewrite (proj2 (Z.ltb_ge _ _)) by lia. done.
  - simpl. by rewrite Hu, Hu'.
Qed.

(** C2, as amended.  When the user function used a step tool in its
    synchronous run and the replay loop gets as far as a record (no earlier
    record selected a thunk or failed) whose position path leads to no op of
    the tree as it then is, or which asks to run an op without a thunk, the
    invocation fails: [runFn] throws, whatever follows in the history, and
    returns no outcome. *)
Theorem drift_is_fatal serializeError fuel fn data pre incomingOp post st :
  exhausts fn data pre st →
  drifted st incomingOp →
  ∃ e, is_drift_error e ∧
       runFn serializeError fuel fn data (pre ++ incomingOp :: post) = quiet (Threw e).
Proof.
  intros Hex Hd.
  destruct (replay_snoc _ _ _ incomingOp post _ Hex) as (Hpos & Hinc & left & Heq).
  destruct Hex as (Hused & _ & Hnone).
  assert (0 ≤ pos st)%Z as Hge by lia.
  destruct (iteration_drifted _ _ _ Hge Hinc Hnone Hd) as (e & It & He).
  exists e. split; [done|]. unfold runFn. fold (start fn data).
  rewrite Hused. simpl negb. cbv iota. fold (replay fn data (pre ++ incomingOp :: post)).
  rewrite Heq. cbn [do_while]. by rewrite It.
Qed.

(** C3.  When the replay loop selects a thunk and the thunk throws, [runFn]
    returns normally: the outcome is ["multi-run"] with an [error] key and
    no [data] key, holding the serialized error (the thrown value itself
    when it cannot be serialized). *)
Theorem thrown_step_is_reported serializeError fuel fn data opStack err :
  selects fn data opStack (Rejects err) →
  outcome (runFn serializeError fuel fn data opStack) =
    Returned "multi-run"
      (PStep (mkStepObject None
                (Some (match serializeError err with
                       | Normal serialized => serialized
                       | Abrupt _ => err
                       end)))).
Proof.
  intros Hsel. rewrite (runFn_selects _ _ _ _ _ _ Hsel). simpl.
  by destruct (serializeError err).
Qed.

(** C6.  When [serializeError] itself throws on the error of the selected
    thunk, [runFn] still returns ["multi-run"]: the [error] key holds the
    raw thrown value, and the only other effect is one [console.warn]. *)
Theorem serialization_failure_falls_back serializeError fuel fn data opStack err
    serializationErr :
  selects fn data opStack (Rejects err) →
  serializeError err = Abrupt serializationErr →
  runFn serializeError fuel fn data opStack =
    mkInvocation (Returned "multi-run" (PStep (mkStepObject None (Some err))))
                 [(serializationWarning, serializationErr)].
Proof.
  intros Hsel Hser. rewrite (runFn_selects _ _ _ _ _ _ Hsel). simpl. by rewrite Hser.
Qed.

(** C10.  When the selected thunk resolves, [runFn] returns ["multi-run"]
    with a [data] key and no [error] key; [data] is [null] when the thunk
    resolved with [undefined], and the resolved value otherwise. *)
Theorem undefined_step_result_is_null serializeError fuel fn data opStack v :
  selects fn data opStack (Fulfils v) →
  runFn serializeError fuel fn data opStack =
    quiet (Returned "multi-run"
             (PStep (mkStepObject (Some (match v with VUndefined => VNull | _ => v end))
                                  None))).
Proof.
  intros Hsel. rewrite (runFn_selects _ _ _ _ _ _ Hsel). simpl. by destruct v.
Qed.

(** ** Replaying an error *)

Lemma op_at_Some st (targetOps : list Handle) idx a node :
  js_index targetOps idx ≫= (fun a => (a ,.) <$> heap st !! a) = Some (a, node) ↔
  js_index targetOps idx = Some a ∧ heap st !! a = Some node.
Proof.
  split.
  - intros H. apply bind_Some in H as (a' & Hidx & H).
    apply fmap_Some in H as (n & Hn & Heq). by simplify_eq.
  - intros [-> Hn]. simpl. by rewrite Hn.
Qed.

Lemma resolve_lookup st path : ∀ targetOps a node,
  resolve st targetOps path = Some (a, node) → heap st !! a = Some node.
Proof.
  induction path as [| idx rest IH]; intros targetOps a node H; [done|].
  simpl in H. destruct (js_index targetOps idx ≫= _) as [[a' node']|] eqn:E; [|done].
  destruct rest as [| idx' rest'].
  - inversion H; subst. apply bind_Some in E as (a'' & _ & E).
    by apply fmap_Some in E as (n & Hn & [= -> ->]).
  - by apply IH in H.
Qed.

(** Rejecting a pending promise: it becomes rejected with that very reason,
    and its reactions are queued with it. *)
Lemma settle_pending a c st node reactions :
  heap st !! a = Some node →
  t_promise node = Pending reactions →
  t_promise <$> heap (settle a c st) !! a = Some (Settled c) ∧
  microtasks (settle a c st) = microtasks st ++ map (react c) reactions.
Proof.
  intros Ha Hp. unfold settle. rewrite Ha, Hp. simpl. split; [|done].
  rewrite list_lookup_insert_eq; [done|]. by eapply lookup_lt_Some.
Qed.

(** Replaying an error record whose op is still pending. *)
Lemma iteration_rejects opStack st incomingOp a node reactions :
  (0 ≤ pos st)%Z →
  js_index opStack (pos st) = Some incomingOp →
  userFnToRun st = None →
  run incomingOp = false →
  data incomingOp = VUndefined →
  resolve st (allFoundOps st) (opPosition incomingOp) = Some (a, node) →
  t_promise node = Pending reactions →
  ∃ st',
    iteration opStack st = Next st' ∧
    t_promise <$> heap st' !! a = Some (Settled (Abrupt (error incomingOp))) ∧
    microtasks st' =
      microtasks st ++ map (fun r : Reaction => snd r (error incomingOp)) reactions.
Proof.
  intros Hpos Hinc Hnone Hrun Hdata Hres Hpend.
  pose proof (resolve_lookup _ _ _ _ _ Hres) as Hnode.
  rewrite (iteration_spec _ _ incomingOp) by done. rewrite Hres, Hrun.
  assert (replayed incomingOp = Abrupt (error incomingOp)) as ->
    by (unfold replayed; by rewrite Hdata).
  eexists. split; [done|].
  destruct (settle_pending a (Abrupt (error incomingOp)) st node reactions Hnode Hpend)
    as [Hp Hq].
  split; [exact Hp | exact Hq].
Qed.

(** C7.  Let the replay loop run through [pre] and arrive at a record that
    carries an error (no run flag, no data) and whose position path leads to
    an op whose promise is still pending.  The pass over the record rejects
    that promise with the record's [error] as it stands, queues the
    promise's rejection handlers with it, and goes on.  So when the record's
    [error] is what [runFn] returned when it was asked, after the same [pre],
    to run that step and the thunk threw [thrown], and [serializeError]
    keeps the message of what it serializes, the step's promise rejects with
    a reason whose message is that of [thrown]. *)
Theorem error_record_round_trip serializeError fuel fn event pre incomingOp post st a node
    reactions :
  exhausts fn event pre st →
  run incomingOp = false →
  data incomingOp = VUndefined →
  resolve st (allFoundOps st) (opPosition incomingOp) = Some (a, node) →
  t_promise node = Pending reactions →
  ∃ st',
    iteration (pre ++ incomingOp :: post) st = Next st' ∧
    t_promise <$> heap st' !! a = Some (Settled (Abrupt (error incomingOp))) ∧
    microtasks st' =
      microtasks st ++ map (fun r : Reaction => snd r (error incomingOp)) reactions ∧
    ∀ thrown,
      t_fn node = Some (Rejects thrown) →
      (∀ serialized, serializeError thrown = Normal serialized →
                     message_of serialized = message_of thrown) →
      outcome (runFn serializeError fuel fn event
                 (pre ++ [mkIncomingOp (opPosition incomingOp) true VUndefined VUndefined])) =
        Returned "multi-run" (PStep (mkStepObject None (Some (error incomingOp)))) →
      message_of (error incomingOp) = message_of thrown.
Proof.
  intros Hex Hrun Hdata Hres Hpend.
  destruct (replay_snoc _ _ _ incomingOp post _ Hex) as (Hpos & Hinc & _).
  assert (0 ≤ pos st)%Z as Hge by lia.
  destruct (iteration_rejects _ _ _ _ _ _ Hge Hinc (proj2 (proj2 Hex)) Hrun Hdata Hres Hpend)
    as (st' & It & Hp & Hq).
  exists st'. split; [done|]. split; [done|]. split; [done|].
  intros thrown Hfn Hkeeps Hout.
  pose proof (run_record_selects fn event pre
                (mkIncomingOp (opPosition incomingOp) true VUndefined VUndefined) []
                st a node (Rejects thrown) Hex eq_refl Hres Hfn) as Hsel.
  rewrite (runFn_selects _ _ _ _ _ _ Hsel) in Hout. simpl in Hout.
  destruct (serializeError thrown) as [serialized|serializationErr] eqn:Hser;
    simpl in Hout; inversion Hout; subst; [by apply Hkeeps | done].
Qed.

(** ** The single path *)

Lemma subscribe_hasUsedTools h r st : hasUsedTools (subscribe h r st) = hasUsedTools st.
Proof.
  unfold subscribe. destruct (heap st !! h) as [node|]; [|done].
  by destruct (t_promise node).
Qed.

Lemma finish_hasUsedTools c st : hasUsedTools (finish c st) = hasUsedTools st.
Proof. unfold finish. by destruct (userFnPromise st). Qed.

(** The flag after a synchronous run: raised before, or raised by a tool
    call of this run. *)
Lemma exec_hasUsedTools p : ∀ st,
  hasUsedTools (exec p st) = hasUsedTools st || usesToolSync p.
Proof.
  induction p as [| v | e | o fn k IH | h f _ g _ k IH | job _ k IH]; intros st; simpl.
  - by rewrite orb_false_r.
  - by rewrite finish_hasUsedTools, orb_false_r.
  - by rewrite finish_hasUsedTools, orb_false_r.
  - destruct (useTool o fn st) as [a st1] eqn:E. rewrite orb_true_r.
    apply exec_hasUsedTools_mono. unfold useTool in E.
    destruct (tickOps st); by inversion E.
  - by rewrite IH, subscribe_hasUsedTools.
  - by rewrite IH.
Qed.

Lemma ToolFree_usesToolSync p : ToolFree p → usesToolSync p = false.
Proof. induction 1; simpl; auto. Qed.

Lemma start_hasUsedTools fn data : hasUsedTools (start fn data) = usesToolSync (fn data).
Proof. unfold start. by rewrite exec_hasUsedTools. Qed.

Lemma runFn_single serializeError fuel fn data opStack :
  usesToolSync (fn data) = false →
  runFn serializeError fuel fn data opStack =
    quiet (single (awaitDirectly fuel (fn data))).
Proof.
  intros H. unfold runFn. fold (start fn data). by rewrite start_hasUsedTools, H.
Qed.

(** ** Awaiting the user function comes to an end *)

Lemma desc_acc_children p : (∀ m, sub m p → Acc desc m) → Acc desc p.
Proof.
  intros H. constructor. intros c Hc. inversion Hc as [? ? Hs | ? m ? Hd Hs]; subst.
  - by apply H.
  - eapply Acc_inv; [apply (H m Hs) | exact Hd].
Qed.

Lemma desc_wf : ∀ p, Acc desc p.
Proof.
  induction p as [| v | e | o fn k IH | h f IHf g IHg k IH | job IHjob k IH];
    apply desc_acc_children; intros m Hm; inversion Hm; subst; auto.
Qed.

Lemma desc_weaken m p l :
  sub m p → Forall (fun c => desc c m) l → Forall (fun c => desc c p) l.
Proof. intros Hs Hl. eapply Forall_impl; [exact Hl|]. intros c Hc. exact (desc_step c m p Hc Hs). Qed.

Lemma expands_nil_inv q' : expands [] q' → q' = [].
Proof. by inversion 1. Qed.

Lemma expands_app_inv q1 : ∀ q2 y,
  expands (q1 ++ q2) y → ∃ y1 y2, y = y1 ++ y2 ∧ expands q1 y1 ∧ expands q2 y2.
Proof.
  induction q1 as [| p q1 IH]; intros q2 y H; simpl in H.
  - exists [], y. repeat split; [constructor | done].
  - inversion H as [| ? ? l q' Hl Hq]; subst.
    destruct (IH _ _ Hq) as (y1 & y2 & -> & H1 & H2).
    exists (l ++ y1), y2. rewrite <-(assoc_L (++)). repeat split; [|done].
    by constructor.
Qed.

Lemma turn_acc_nil : Acc turn [].
Proof. constructor. by intros y [Hne _]. Qed.

Lemma turn_acc_inv q q' : Acc turn q → expands q q' → Acc turn q'.
Proof.
  intros Hacc Hexp. destruct q as [| p q].
  - apply expands_nil_inv in Hexp as ->. apply turn_acc_nil.
  - eapply Acc_inv; [exact Hacc | by split].
Qed.

Lemma turn_acc_app q1 : Acc turn q1 → ∀ q2, Acc turn q2 → Acc turn (q1 ++ q2).
Proof.
  induction 1 as [q1 Hacc1 IH]. intros q2 Hacc2. constructor.
  intros y [Hne Hexp].
  apply expands_app_inv in Hexp as (y1 & y2 & -> & H1 & H2).
  pose proof (turn_acc_inv _ _ Hacc2 H2) as Hy2.
  destruct q1 as [| p q1].
  - apply expands_nil_inv in H1 as ->. exact Hy2.
  - apply IH; [by split | exact Hy2].
Qed.

Lemma turn_acc_pieces p l :
  (∀ c, desc c p → Acc turn [c]) → Forall (fun c => desc c p) l → Acc turn l.
Proof.
  intros IH. induction 1 as [| c l Hc _ IHl]; [apply turn_acc_nil|].
  change (c :: l) with ([c] ++ l). apply turn_acc_app; auto.
Qed.

Lemma turn_acc_single p : Acc turn [p].
Proof.
  induction (desc_wf p) as [p _ IH]. constructor. intros y [_ Hexp].
  inversion Hexp as [| ? ? l q' Hl Hq]; subst.
  apply expands_nil_inv in Hq as ->. rewrite app_nil_r.
  by eapply turn_acc_pieces.
Qed.

Lemma turn_wf q : Acc turn q.
Proof.
  induction q as [| p q IH]; [apply turn_acc_nil|].
  change (p :: q) with ([p] ++ q). apply turn_acc_app; [apply turn_acc_single | done].
Qed.

Lemma useTool_microtasks o fn st : microtasks (useTool o fn st).2 = microtasks st.
Proof. unfold useTool. by destruct (tickOps st). Qed.

Lemma finish_microtasks c st : microtasks (finish c st) = microtasks st.
Proof. unfold finish. by destruct (userFnPromise st). Qed.

(** What a synchronous run adds to the queue are pieces of the code run. *)
Lemma exec_microtasks p : ∀ st,
  ∃ l, microtasks (exec p st) = microtasks st ++ l ∧ Forall (fun c => desc c p) l.
Proof.
  induction p as [| v | e | o fn k IH | h f _ g _ k IH | job _ k IH]; intros st; simpl.
  - exists []. by rewrite app_nil_r.
  - exists []. by rewrite finish_microtasks, app_nil_r.
  - exists []. by rewrite finish_microtasks, app_nil_r.
  - pose proof (useTool_microtasks o fn st) as Hu.
    destruct (useTool o fn st) as [a st1]. simpl in Hu.
    destruct (IH a st1) as (l & Hl & Hd). exists l. rewrite Hl, Hu. split; [done|].
    eapply desc_weaken; [constructor | exact Hd].
  - destruct (IH (subscribe h (f, g) st)) as (l & Hl & Hd).
    assert (∃ l0, microtasks (subscribe h (f, g) st) = microtasks st ++ l0 ∧
                  Forall (fun c => desc c (Then h f g k)) l0) as (l0 & Hl0 & Hd0).
    { unfold subscribe. destruct (heap st !! h) as [node|].
      - destruct (t_promise node) as [reactions | [v | e]]; simpl.
        + exists []. by rewrite app_nil_r.
        + exists [f v]. split; [done|]. repeat constructor.
        + exists [g e]. split; [done|]. repeat constructor.
      - exists []. by rewrite app_nil_r. }
    exists (l0 ++ l). rewrite Hl, Hl0, (assoc_L (++)). split; [done|].
    apply Forall_app. split; [done|]. eapply desc_weaken; [constructor | exact Hd].
  - destruct (IH (set_microtasks (microtasks st ++ [job]) st)) as (l & Hl & Hd).
    exists (job :: l). rewrite Hl. simpl. rewrite <-(assoc_L (++)). split; [done|].
    constructor; [repeat constructor|]. eapply desc_weaken; [constructor | exact Hd].
Qed.

Lemma foldl_exec_expands q : ∀ st,
  ∃ q', microtasks (foldl (fun s job => exec job s) st q) = microtasks st ++ q' ∧
        expands q q'.
Proof.
  induction q as [| p q IH]; intros st; simpl.
  - exists []. rewrite app_nil_r. split; [done | constructor].
  - destruct (exec_microtasks p st) as (l & Hl & Hd).
    destruct (IH (exec p st)) as (q' & Hq' & Hexp).
    exists (l ++ q'). rewrite Hq', Hl, (assoc_L (++)). split; [done|]. by constructor.
Qed.

Lemma resolveNextTick_expands st :
  expands (microtasks st) (microtasks (resolveNextTick st)).
Proof.
  unfold resolveNextTick.
  destruct (foldl_exec_expands (microtasks st) (set_microtasks [] st)) as (q' & Hq' & Hexp).
  by rewrite Hq'.
Qed.

(** From some number of turns on, [await userFnPromise] gives one and the
    same answer, and that answer is not [TurnsRanOut]. *)
Lemma awaitUserFn_terminates st :
  ∃ n : nat, ∀ fuel : nat, (n ≤ fuel)%nat →
    awaitUserFn fuel st = awaitUserFn n st ∧ awaitUserFn n st ≠ TurnsRanOut.
Proof.
  remember (microtasks st) as q eqn:Hq. revert st Hq.
  induction (turn_wf q) as [q _ IH]. intros st Hq.
  destruct (userFnPromise st) as [c|] eqn:Hc.
  { exists 0. intros fuel _. destruct fuel; simpl; rewrite Hc; by destruct c. }
  destruct (microtasks st) as [| job jobs] eqn:Hm.
  { exists 0. intros fuel _. destruct fuel; simpl; by rewrite Hc, Hm. }
  destruct (IH (microtasks (resolveNextTick st))) with (st := resolveNextTick st)
    as (n & Hn); [| done |].
  { subst q. split; [done|]. rewrite <-Hm. apply resolveNextTick_expands. }
  exists (S n). intros fuel Hle. destruct fuel as [| fuel]; [lia|].
  simpl. rewrite Hc, Hm. apply Hn. lia.
Qed.


(** The step-function path of [runFn], taken when a tool was used in the
    synchronous run. *)
Lemma runFn_step_path serializeError fn data opStack :
  usesToolSync (fn data) = true →
  ∀ fuel,
    runFn serializeError fuel fn data opStack =
      match replay fn data opStack with
      | LoopThrew e => quiet (Threw e)
      | LoopOutOfFuel => quiet OutOfFuel
      | LoopDone state =>
          match userFnToRun state with
          | Some userFnToRun => runStep serializeError userFnToRun
          | None => quiet (Returned "multi-discovery" (POps (discoveredOps opStack state)))
          end
      end.
Proof.
  intros Huses fuel. unfold runFn. fold (start fn data).
  by rewrite start_hasUsedTools, Huses.
Qed.

(** C9.  Which path [runFn] takes is decided by the synchronous run of the
    user function alone.  If no step tool was called in it, the outcome is
    that of awaiting the function, whatever the history holds and whatever
    the function does with the tools later; if one was called, the outcome
    is never ["single"]. *)
Theorem path_is_decided_by_synchronous_run serializeError fuel fn data opStack :
  (usesToolSync (fn data) = false →
     runFn serializeError fuel fn data opStack =
       quiet (single (awaitDirectly fuel (fn data)))) ∧
  (usesToolSync (fn data) = true →
     ∀ payload,
       outcome (runFn serializeError fuel fn data opStack) ≠ Returned "single" payload).
Proof.
  split; [apply runFn_single|].
  intros Huses payload. unfold runFn. fold (start fn data).
  rewrite start_hasUsedTools, Huses. simpl negb. cbv iota.
  destruct (do_while _ _ _) as [st | e |]; [|done|done].
  destruct (userFnToRun st) as [[v | err |]|]; simpl; try done.
  by destruct (serializeError err).
Qed.

(** ** What [runFn] returns, and when it does not *)

Lemma walk_throws incomingOp path : ∀ targetOps currentOp st e,
  walk incomingOp path targetOps currentOp st = WalkThrew e →
  e = typeError ∨ e = badStackNoFn.
Proof.
  induction path as [| idx rest IH]; intros targetOps currentOp st e H; [done|].
  simpl in H. destruct (js_index targetOps idx ≫= _) as [[a node]|];
    [|inversion H; auto].
  destruct rest as [| idx' rest'].
  - simpl in H. destruct (run incomingOp).
    + destruct (t_fn node); [done|]. inversion H; auto.
    + by destruct (negb (is_undefined (data incomingOp))).
  - simpl negb in H. cbv iota in H. by eapply IH.
Qed.

Lemma iteration_throws opStack st e :
  iteration opStack st = Throws e → is_drift_error e.
Proof.
  unfold iteration, is_drift_error. destruct (0 <=? pos st)%Z; [|done].
  destruct (js_index opStack (pos st)); [|inversion 1; auto].
  destruct (walk _ _ _ _ _) as [st1 currentOp|e'] eqn:W.
  - destruct (userFnToRun st1); [done|]. destruct currentOp; [done|].
    inversion 1; auto.
  - inversion 1; subst. apply walk_throws in W as [-> | ->]; auto.
Qed.

Lemma do_while_throws opStack : ∀ fuel st e,
  do_while fuel opStack st = LoopThrew e → is_drift_error e.
Proof.
  induction fuel as [| fuel IH]; intros st e H; [done|]. simpl in H.
  destruct (iteration opStack st) as [st1 | st1 | e'] eqn:It; [|done|].
  - destruct (_ <? _)%Z; [by eapply IH | done].
  - inversion H; subst. by eapply iteration_throws.
Qed.

Lemma replay_fuel fn data opStack : replay fn data opStack ≠ LoopOutOfFuel.
Proof. apply do_while_fuel; [rewrite start_pos|]; lia. Qed.

(** C1, as amended.  [runFn] either fails or returns, and what it returns
    is exactly one of ["single"] with a value, ["multi-run"] with an object
    that has [data] or [error] but not both, and ["multi-discovery"] with a
    list of ops.  It throws only a drift error of the replay loop or, for a
    function that used no tool in its synchronous run, what that function
    threw; it stays unsettled only when the selected thunk, or such a
    function, never settles. *)
Theorem runFn_outcome serializeError fuel fn data opStack :
  match outcome (runFn serializeError fuel fn data opStack) with
  | Returned type payload =>
      exactly_one (is_single type payload) (is_step_result type payload)
                  (is_discovery type payload)
  | Threw e =>
      if usesToolSync (fn data) then is_drift_error e
      else awaitDirectly fuel (fn data) = RejectedWith e
  | Unsettled =>
      if usesToolSync (fn data) then selects fn data opStack Stalls
      else awaitDirectly fuel (fn data) = NeverSettles
  | OutOfFuel =>
      usesToolSync (fn data) = false ∧ awaitDirectly fuel (fn data) = TurnsRanOut
  end.
Proof.
  assert (∀ v, exactly_one (is_single "single" (PValue v))
                 (is_step_result "single" (PValue v))
                 (is_discovery "single" (PValue v))) as Hsingle.
  { intros v. left. repeat split; [by eexists | by intros [? _] ..]. }
  assert (∀ r, (is_Some (r_data r) ∧ r_error r = None) ∨
               (r_data r = None ∧ is_Some (r_error r)) →
               exactly_one (is_single "multi-run" (PStep r))
                 (is_step_result "multi-run" (PStep r))
                 (is_discovery "multi-run" (PStep r))) as Hstep.
  { intros r Hr. right; left. repeat split; [by intros [? _] | by eexists | by intros [? _]]. }
  assert (∀ ops, exactly_one (is_single "multi-discovery" (POps ops))
                   (is_step_result "multi-discovery" (POps ops))
                   (is_discovery "multi-discovery" (POps ops))) as Hops.
  { intros ops. right; right. repeat split; [by intros [? _] .. | by eexists]. }
  destruct (usesToolSync (fn data)) eqn:Huses.
  - unfold runFn. fold (start fn data). rewrite start_hasUsedTools, Huses.
    simpl negb. cbv iota. fold (replay fn data opStack).
    destruct (replay fn data opStack) as [st | e |] eqn:Hloop.
    + destruct (userFnToRun st) as [[v | err |]|] eqn:Hrun; simpl.
      * apply Hstep. left. split; [by eexists | done].
      * destruct (serializeError err); simpl; apply Hstep; right;
          (split; [done | by eexists]).
      * split; [by rewrite start_hasUsedTools|]. by exists st.
      * apply Hops.
    + simpl. by eapply do_while_throws.
    + by apply replay_fuel in Hloop.
  - rewrite runFn_single by done. simpl.
    destruct (awaitDirectly fuel (fn data)); simpl; auto.
Qed.

(** ** The op tree keeps its shape *)

Lemma grows_prefix st st' r : grows st st' → deref st r `prefix_of` deref st' r.
Proof.
  intros G. destruct (decide (r = tickOps st)) as [-> | Hne]; [apply G|].
  by rewrite (g_others _ _ G r Hne).
Qed.

Lemma grows_refl st : grows st st.
Proof. by split. Qed.

Lemma grows_trans st1 st2 st3 :
  tickOps st2 = tickOps st1 → grows st1 st2 → grows st2 st3 → grows st1 st3.
Proof.
  intros Ht G12 G23. split.
  - etrans; [apply G12 | apply G23].
  - etrans; [apply G12|]. rewrite <-Ht. apply G23.
  - intros r Hne. rewrite (g_others _ _ G23) by congruence. by apply G12.
Qed.

Lemma deref_useTool o fn st r :
  (∀ p, tickOps st = ChildOps p → (p < length (heap st))%nat) →
  deref (useTool o fn st).2 r =
    if decide (r = tickOps st) then deref st r ++ [length (heap st)] else deref st r.
Proof.
  intros Hact. unfold useTool. destruct (tickOps st) as [| q] eqn:Ht; simpl.
  - destruct r as [| p]; simpl; [done|].
    destruct (decide (p < length (heap st))%nat) as [Hlt | Hge].
    + by rewrite lookup_app_l.
    + rewrite (lookup_ge_None_2 (heap st)) by lia.
      destruct (decide (p = length (heap st))) as [-> | Hne].
      * by rewrite list_lookup_middle.
      * rewrite lookup_ge_None_2; [done|]. rewrite length_app. simpl. lia.
  - specialize (Hact q eq_refl). destruct r as [| p]; simpl; [done|].
    destruct (decide (ChildOps p = ChildOps q)) as [[= ->] | Hne].
    + rewrite list_lookup_alter_eq, lookup_app_l by done.
      destruct (lookup_lt_is_Some_2 (heap st) q Hact) as [node Hnode].
      by rewrite !Hnode.
    + rewrite list_lookup_alter_ne by congruence.
      destruct (decide (p < length (heap st))%nat) as [Hlt | Hge].
      * by rewrite lookup_app_l.
      * rewrite (lookup_ge_None_2 (heap st)) by lia.
        destruct (decide (p = length (heap st))) as [-> | Hne'].
        -- by rewrite list_lookup_middle.
        -- rewrite lookup_ge_None_2; [done|]. rewrite length_app. simpl. lia.
Qed.

Lemma useTool_heap_length o fn st :
  length (heap (useTool o fn st).2) = S (length (heap st)).
Proof.
  unfold useTool. destruct (tickOps st); simpl;
    rewrite ?length_alter, length_app; simpl; lia.
Qed.

(** Addresses are handed out in call order: a tool call registers its op
    at the next free address. *)
Lemma useTool_handle o fn st :
  (useTool o fn st).1 = length (heap st) ∧
  length (heap (useTool o fn st).2) = S (length (heap st)).
Proof.
  split; [|apply useTool_heap_length]. unfold useTool. by destruct (tickOps st).
Qed.

Lemma useTool_tickOps o fn st : tickOps (useTool o fn st).2 = tickOps st.
Proof. apply useTool_same_control. Qed.

Lemma useTool_grows o fn st :
  well_formed st → grows st (useTool o fn st).2.
Proof.
  intros W. split.
  - rewrite useTool_heap_length. lia.
  - rewrite deref_useTool by apply W. rewrite decide_True by done.
    by apply prefix_app_r.
  - intros r Hne. rewrite deref_useTool by apply W. by rewrite decide_False.
Qed.

Lemma useTool_well_formed o fn st :
  well_formed st → well_formed (useTool o fn st).2.
Proof.
  intros W.
  assert (∀ r a, a ∈ deref (useTool o fn st).2 r →
            a ∈ deref st r ∨ (r = tickOps st ∧ a = length (heap st))) as Hin.
  { intros r a. rewrite deref_useTool by apply W. case_decide; [|auto].
    rewrite elem_of_app, list_elem_of_singleton. intros [?|?]; auto. }
  split.
  - intros r a Ha. rewrite useTool_heap_length.
    destruct (Hin r a Ha) as [H | [_ ->]]; [|lia].
    apply (wf_closed _ W) in H. lia.
  - intros r. rewrite deref_useTool by apply W. case_decide; [|apply W].
    apply StronglySorted_app_2; [| apply W | repeat constructor].
    intros a b Ha Hb. apply list_elem_of_singleton in Hb as ->.
    by apply (wf_closed _ W) in Ha.
  - intros r r' a Ha Ha'.
    pose proof (Hin r a Ha) as H. pose proof (Hin r' a Ha') as H'.
    destruct H as [H | [Hr Heq]], H' as [H' | [Hr' Heq']].
    + by eapply (wf_tree _ W).
    + subst a. apply (wf_closed _ W) in H. lia.
    + subst a. apply (wf_closed _ W) in H'. lia.
    + congruence.
  - intros p. rewrite useTool_tickOps, useTool_heap_length. intros Hp.
    apply (wf_active _ W) in Hp. lia.
Qed.

Lemma same_shape_refl st : same_shape st st.
Proof. by split. Qed.

Lemma same_shape_well_formed st st' :
  same_shape st st' → well_formed st → well_formed st'.
Proof.
  intros [Hh Hd Ht] W. split.
  - intros r a. rewrite Hd, Hh. apply W.
  - intros r. rewrite Hd. apply W.
  - intros r r' a. rewrite !Hd. apply W.
  - intros p. rewrite Ht, Hh. apply W.
Qed.

Lemma same_shape_grows st st' : same_shape st st' → grows st st'.
Proof.
  intros [Hh Hd Ht]. split.
  - by rewrite Hh.
  - by rewrite Hd.
  - intros r _. apply Hd.
Qed.

Lemma set_promise_same_shape st a node p :
  heap st !! a = Some node →
  same_shape st (set_heap (<[a := set_promise p node]> (heap st)) st).
Proof.
  intros Ha. split; simpl.
  - by rewrite length_insert.
  - intros [| q]; simpl; [done|].
    destruct (decide (a = q)) as [-> | Hne].
    + rewrite list_lookup_insert_eq by (by eapply lookup_lt_Some). by rewrite Ha.
    + by rewrite list_lookup_insert_ne.
  - done.
Qed.

Lemma settle_same_shape a c st : same_shape st (settle a c st).
Proof.
  unfold settle. destruct (heap st !! a) as [node|] eqn:Ha; [|apply same_shape_refl].
  destruct (t_promise node); [|apply same_shape_refl].
  destruct (set_promise_same_shape st a node (Settled c) Ha) as [Hh Hd Ht].
  by split.
Qed.

Lemma subscribe_same_shape h r st : same_shape st (subscribe h r st).
Proof.
  unfold subscribe. destruct (heap st !! h) as [node|] eqn:Ha; [|apply same_shape_refl].
  destruct (t_promise node); [|by split].
  by apply set_promise_same_shape.
Qed.

Lemma finish_same_shape c st : same_shape st (finish c st).
Proof. unfold finish. destruct (userFnPromise st); by split. Qed.

(** A synchronous run of user code keeps the tree well formed and only
    grows it at the active array. *)
Lemma exec_shape p : ∀ st,
  well_formed st → well_formed (exec p st) ∧ grows st (exec p st).
Proof.
  induction p as [| v | e | o fn k IH | h f _ g _ k IH | job _ k IH]; intros st W; simpl.
  - split; [done | apply grows_refl].
  - pose proof (finish_same_shape (Normal v) st) as S.
    split; [by eapply same_shape_well_formed | by apply same_shape_grows].
  - pose proof (finish_same_shape (Abrupt e) st) as S.
    split; [by eapply same_shape_well_formed | by apply same_shape_grows].
  - pose proof (useTool_well_formed o fn st W) as W1.
    pose proof (useTool_grows o fn st W) as G1.
    pose proof (useTool_tickOps o fn st) as T1.
    destruct (useTool o fn st) as [a st1]. simpl in *.
    destruct (IH a st1 W1) as [W2 G2]. split; [done|]. by eapply grows_trans.
  - pose proof (subscribe_same_shape h (f, g) st) as S.
    destruct (IH _ (same_shape_well_formed _ _ S W)) as [W2 G2]. split; [done|].
    eapply grows_trans; [apply S | by apply same_shape_grows | done].
  - assert (same_shape st (set_microtasks (microtasks st ++ [job]) st)) as S by by split.
    destruct (IH _ (same_shape_well_formed _ _ S W)) as [W2 G2]. split; [done|].
    eapply grows_trans; [apply S | by apply same_shape_grows | done].
Qed.

Lemma foldl_exec_shape jobs : ∀ st,
  well_formed st →
  well_formed (foldl (fun s job => exec job s) st jobs) ∧
  grows st (foldl (fun s job => exec job s) st jobs).
Proof.
  induction jobs as [| job jobs IH]; intros st W; simpl.
  - split; [done | apply grows_refl].
  - destruct (exec_shape job st W) as [W1 G1].
    destruct (IH _ W1) as [W2 G2]. split; [done|].
    eapply grows_trans; [| exact G1 | exact G2].
    apply exec_same_control.
Qed.

Lemma resolveNextTick_shape st :
  well_formed st → well_formed (resolveNextTick st) ∧ grows st (resolveNextTick st).
Proof.
  intros W. unfold resolveNextTick.
  assert (same_shape st (set_microtasks [] st)) as S by by split.
  destruct (foldl_exec_shape (microtasks st) _ (same_shape_well_formed _ _ S W))
    as [W2 G2].
  split; [done|]. eapply grows_trans; [apply S | by apply same_shape_grows | done].
Qed.

Lemma createStepTools_well_formed : well_formed createStepTools.
Proof.
  split.
  - intros [| p] a; simpl; by intros ?%elem_of_nil.
  - intros [| p]; simpl; constructor.
  - intros [| p] r' a; simpl; by intros ?%elem_of_nil.
  - done.
Qed.

Lemma extends_trans st1 st2 st3 : extends st1 st2 → extends st2 st3 → extends st1 st3.
Proof.
  intros [H1 D1] [H2 D2]. split; [lia|]. intros r. etrans; [apply D1 | apply D2].
Qed.

Lemma grows_extends st st' : grows st st' → extends st st'.
Proof. intros G. split; [apply G|]. intros r. by apply grows_prefix. Qed.

Lemma same_shape_extends st st' : same_shape st st' → extends st st'.
Proof. intros S. by apply grows_extends, same_shape_grows. Qed.

(** ** Position paths in a growing tree *)

Lemma js_index_prefix {A} (arr arr' : list A) idx a :
  arr `prefix_of` arr' → js_index arr idx = Some a → js_index arr' idx = Some a.
Proof.
  unfold js_index. intros Hpre. destruct (0 <=? idx)%Z; [|done].
  intros H. by eapply prefix_lookup_Some.
Qed.

Lemma deref_child st a node : heap st !! a = Some node → deref st (ChildOps a) = t_tickOps node.
Proof. intros H. simpl. by rewrite H. Qed.

(** A path that leads to an op keeps leading to it as the tree grows. *)
Lemma resolve_mono st st' path : ∀ targetOps targetOps' a node,
  extends st st' →
  targetOps `prefix_of` targetOps' →
  resolve st targetOps path = Some (a, node) →
  ∃ node', resolve st' targetOps' path = Some (a, node').
Proof.
  induction path as [| idx rest IH]; intros targetOps targetOps' a node E Hpre H; [done|].
  simpl in H. destruct (js_index targetOps idx ≫= _) as [[b nodeb]|] eqn:Hb; [|done].
  apply op_at_Some in Hb as [Hidx Hn].
  assert (is_Some (heap st' !! b)) as [nodeb' Hb'].
  { apply lookup_lt_is_Some. apply lookup_lt_Some in Hn. pose proof (e_heap _ _ E). lia. }
  simpl. rewrite (js_index_prefix _ _ _ _ Hpre Hidx). simpl. rewrite Hb'. simpl.
  destruct rest as [| idx' rest'].
  - inversion H; subst. by eexists.
  - eapply IH; [done | | exact H].
    rewrite <-(deref_child st b nodeb), <-(deref_child st' b nodeb') by done. apply E.
Qed.

Lemma resolve_nonempty st targetOps path x : resolve st targetOps path = Some x → path ≠ [].
Proof. by destruct path. Qed.

(** The last index of a path is looked up in the array of the op the rest
    of the path leads to. *)
Lemma resolve_snoc st q : ∀ targetOps i c nodec,
  resolve st targetOps (q ++ [i]) = Some (c, nodec) →
  heap st !! c = Some nodec ∧
  ((q = [] ∧ js_index targetOps i = Some c) ∨
   (∃ b nodeb, resolve st targetOps q = Some (b, nodeb) ∧
               js_index (t_tickOps nodeb) i = Some c)).
Proof.
  induction q as [| idx rest IH]; intros targetOps i c nodec H.
  - simpl in H. destruct (js_index targetOps i ≫= _) as [[b nodeb]|] eqn:Hb; [|done].
    inversion H; subst. apply op_at_Some in Hb as [Hidx Hn].
    split; [done|]. by left.
  - simpl in H. destruct (js_index targetOps idx ≫= _) as [[b nodeb]|] eqn:Hb; [|done].
    destruct (rest ++ [i]) as [| x l] eqn:Hrest; [by destruct rest|]. rewrite <-Hrest in H.
    destruct (IH _ _ _ _ H) as [Hc Hcase]. split; [done|]. right.
    simpl. rewrite Hb. destruct Hcase as [[-> Hidx] | (b' & nodeb' & Hq & Hidx)].
    + by exists b, nodeb.
    + exists b', nodeb'. split; [|done]. destruct rest; [done | exact Hq].
Qed.

Lemma resolve_snoc_intro st q : ∀ targetOps i c nodec b nodeb,
  resolve st targetOps q = Some (b, nodeb) →
  js_index (t_tickOps nodeb) i = Some c →
  heap st !! c = Some nodec →
  resolve st targetOps (q ++ [i]) = Some (c, nodec).
Proof.
  induction q as [| idx rest IH]; intros targetOps i c nodec b nodeb Hq Hidx Hc; [done|].
  simpl in Hq. simpl.
  destruct (js_index targetOps idx ≫= _) as [[b' nodeb']|] eqn:Hb; [|done].
  destruct rest as [| idx' rest'].
  - inversion Hq; subst. simpl. by rewrite Hidx; simpl; rewrite Hc.
  - simpl app at 1. by eapply IH.
Qed.

Lemma js_index_elem_of {A} (arr : list A) i a : js_index arr i = Some a → a ∈ arr.
Proof.
  unfold js_index. destruct (0 <=? i)%Z; [|done]. apply list_elem_of_lookup_2.
Qed.

Lemma js_index_inj {A} (arr : list A) i j a :
  NoDup arr → js_index arr i = Some a → js_index arr j = Some a → i = j.
Proof.
  unfold js_index. intros Hnd.
  destruct (0 <=? i)%Z eqn:Hi; [|done]. destruct (0 <=? j)%Z eqn:Hj; [|done].
  intros H1 H2. apply Z.leb_le in Hi, Hj.
  pose proof (NoDup_lookup _ _ _ _ Hnd H1 H2). lia.
Qed.

Lemma StronglySorted_lt_NoDup (l : list nat) : StronglySorted lt l → NoDup l.
Proof.
  induction 1 as [| x l _ IH Hall]; constructor; [|done].
  intros Hx. rewrite Forall_forall in Hall. specialize (Hall x Hx). lia.
Qed.

(** In a well-formed tree an op has one position path only. *)
Lemma resolve_inj st q : ∀ q' a node node',
  well_formed st →
  resolve st (allFoundOps st) q = Some (a, node) →
  resolve st (allFoundOps st) q' = Some (a, node') →
  q = q'.
Proof.
  induction q as [| i q IH] using rev_ind; intros q' a node node' W H H'; [done|].
  destruct q' as [| i' q' _] using rev_ind; [done|].
  apply resolve_snoc in H as [Ha Hcase]. apply resolve_snoc in H' as [Ha' Hcase'].
  assert (∀ r, NoDup (deref st r)) as Hnd
    by (intros r; apply StronglySorted_lt_NoDup, W).
  destruct Hcase as [[-> Hidx] | (b & nodeb & Hq & Hidx)],
           Hcase' as [[-> Hidx'] | (b' & nodeb' & Hq' & Hidx')].
  - f_equal. f_equal. by eapply (js_index_inj _ _ _ _ (Hnd RootOps)).
  - pose proof (resolve_lookup _ _ _ _ _ Hq') as Hb'.
    apply js_index_elem_of in Hidx, Hidx'.
    rewrite <-(deref_child st b' nodeb' Hb') in Hidx'.
    by pose proof (wf_tree _ W RootOps (ChildOps b') a Hidx Hidx').
  - pose proof (resolve_lookup _ _ _ _ _ Hq) as Hb.
    apply js_index_elem_of in Hidx, Hidx'.
    rewrite <-(deref_child st b nodeb Hb) in Hidx.
    by pose proof (wf_tree _ W RootOps (ChildOps b) a Hidx' Hidx).
  - pose proof (resolve_lookup _ _ _ _ _ Hq) as Hb.
    pose proof (resolve_lookup _ _ _ _ _ Hq') as Hb'.
    pose proof (js_index_elem_of _ _ _ Hidx) as Hin.
    pose proof (js_index_elem_of _ _ _ Hidx') as Hin'.
    rewrite <-(deref_child st b nodeb Hb) in Hin.
    rewrite <-(deref_child st b' nodeb' Hb') in Hin'.
    pose proof (wf_tree _ W _ _ a Hin Hin') as Heq. simplify_eq.
    rewrite (IH q' _ _ _ W Hq Hq'). f_equal. f_equal.
    eapply (js_index_inj _ _ _ _ (Hnd (ChildOps b'))); by rewrite (deref_child _ _ _ Hb).
Qed.

(** ** The invariant of the replay loop *)

Lemma start_replay_inv fn data opStack : replay_inv opStack (start fn data).
Proof.
  pose proof (exec_shape (fn data) _ createStepTools_well_formed) as [W G].
  fold (start fn data) in W, G.
  split.
  - done.
  - rewrite start_pos. lia.
  - apply start_userFnToRun.
  - left. rewrite start_pos. split; [lia|].
    unfold start. by rewrite (sc_tickOps _ _ (exec_same_control _ _)).
  - intros b Hb. rewrite (g_others _ _ G) in Hb by done. by destruct b.
  - intros k incomingOp q i Hk. rewrite start_pos in Hk. simpl in Hk. lia.
Qed.

Lemma js_index_nat {A} (arr : list A) (i : Z) :
  (0 ≤ i)%Z → js_index arr i = arr !! Z.to_nat i.
Proof. intros Hi. unfold js_index. by rewrite (proj2 (Z.leb_le _ _) Hi). Qed.

Lemma resolve_ext st st' path : ∀ targetOps,
  heap st' = heap st → resolve st' targetOps path = resolve st targetOps path.
Proof.
  intros targetOps Hh. revert targetOps.
  induction path as [| idx rest IH]; intros targetOps; [done|].
  simpl. rewrite Hh. destruct (js_index targetOps idx ≫= _) as [[a node]|]; [|done].
  destruct rest; [done | apply IH].
Qed.

Lemma replay_inv_step opStack st st1 :
  replay_inv opStack st →
  iteration opStack st = Next st1 →
  replay_inv opStack (set_pos (pos (resolveNextTick st1) + 1) (resolveNextTick st1)).
Proof.
  intros [W Hpos Hnone Hact Hpar Hhist] It.
  destruct (decide (pos st < 0)%Z) as [Hneg | Hge].
  - (* the first pass: no record is read *)
    unfold iteration in It. rewrite (proj2 (Z.leb_gt _ _) Hneg) in It.
    inversion It; subst st1. clear It.
    destruct (resolveNextTick_shape st W) as [W2 G2].
    pose proof (resolveNextTick_same_control st) as [Hp2 Ht2 Hu2].
    assert (tickOps st = RootOps) as Hroot.
    { destruct Hact as [[_ ?] | (? & ? & ? & ? & _)]; [done | lia]. }
    split; simpl.
    + eapply same_shape_well_formed; [|exact W2]. by split.
    + lia.
    + congruence.
    + left. split; [lia | congruence].
    + intros b Hb. change (deref (resolveNextTick st) (ChildOps b) ≠ []) in Hb.
      rewrite (g_others _ _ G2) in Hb by (rewrite Hroot; done).
      destruct (Hpar b Hb) as (j & ? & ? & Hj & _). lia.
    + intros k incomingOp q i Hk. lia.
  - (* a pass over the record under the cursor *)
    assert (0 ≤ pos st)%Z as Hpos0 by lia.
    destruct (js_index opStack (pos st)) as [incomingOp|] eqn:Hinc.
    2: { unfold iteration in It. rewrite (proj2 (Z.leb_le _ _) Hpos0), Hinc in It. done. }
    rewrite (iteration_spec _ _ incomingOp) in It by done.
    destruct (resolve st (allFoundOps st) (opPosition incomingOp)) as [[a node]|] eqn:Hres;
      [|done].
    destruct (run incomingOp); [by destruct (t_fn node)|].
    inversion It; subst st1. clear It.
    pose proof (resolve_lookup _ _ _ _ _ Hres) as Hnode.
    pose proof (settle_same_shape a (replayed incomingOp) st) as S.
    set (st0 := settle a (replayed incomingOp) st) in *.
    set (st1 := set_tickOps (ChildOps a) st0).
    assert (well_formed st1) as W1.
    { pose proof (same_shape_well_formed _ _ S W) as [C So T A].
      split; [exact C | exact So | exact T |].
      simpl. intros p [= <-]. rewrite (ss_heap _ _ S). by eapply lookup_lt_Some. }
    destruct (resolveNextTick_shape st1 W1) as [W2 G2].
    pose proof (resolveNextTick_same_control st1) as [Hp2 Ht2 Hu2].
    set (st2 := resolveNextTick st1) in *.
    assert (extends st st2) as E.
    { eapply extends_trans; [apply (same_shape_extends _ _ S)|].
      eapply extends_trans; [|apply (grows_extends _ _ G2)]. by split. }
    assert (pos st2 = pos st) as Hp.
    { rewrite Hp2. simpl. apply settle_same_control. }
    assert (∀ z p x, resolve st (allFoundOps st) p = Some x →
              ∃ node', resolve (set_pos z st2) (allFoundOps st2) p =
                       Some (x.1, node')) as Hmono.
    { intros z p [b nodeb] Hp'. rewrite (resolve_ext st2) by done.
      eapply resolve_mono; [exact E | | exact Hp']. apply (e_deref _ _ E RootOps). }
    split; simpl.
    + eapply same_shape_well_formed; [|exact W2]. by split.
    + lia.
    + rewrite Hu2. simpl. unfold st0. by rewrite settle_userFnToRun.
    + right. destruct (Hmono (pos st + 1)%Z _ _ Hres) as [node' Hres'].
      exists incomingOp, a, node'. rewrite Hp.
      replace (pos st + 1 - 1)%Z with (pos st) by lia.
      split; [lia|]. split; [done|]. split; [by rewrite Ht2 | done].
    + intros b Hb. change (deref st2 (ChildOps b) ≠ []) in Hb.
      destruct (decide (b = a)) as [-> | Hne].
      * destruct (Hmono (pos st + 1)%Z _ _ Hres) as [node' Hres'].
        exists (Z.to_nat (pos st)), incomingOp, node'. rewrite Hp.
        split; [lia|]. split; [by rewrite js_index_nat in Hinc | done].
      * rewrite (g_others _ _ G2) in Hb by (simpl; congruence).
        change (deref st0 (ChildOps b) ≠ []) in Hb. rewrite (ss_deref _ _ S) in Hb.
        destruct (Hpar b Hb) as (j & inc' & node' & Hj & Hlook & Hres').
        destruct (Hmono (pos st + 1)%Z _ _ Hres') as [node'' Hres''].
        exists j, inc', node''. rewrite Hp. split; [lia|]. by split.
    + intros k inc' q i Hk Hlook Hpath Hq. rewrite Hp in Hk.
      destruct (decide (k < Z.to_nat (pos st))%nat) as [Hlt | Hge'].
      { by eapply Hhist. }
      assert (k = Z.to_nat (pos st)) as -> by lia.
      rewrite js_index_nat in Hinc by done. assert (inc' = incomingOp) as -> by congruence.
      rewrite Hpath in Hres.
      apply resolve_snoc in Hres as [_ [[-> _] | (b & nodeb & Hresq & Hidx)]]; [done|].
      assert (deref st (ChildOps b) ≠ []) as Hb.
      { rewrite (deref_child _ _ _ (resolve_lookup _ _ _ _ _ Hresq)).
        apply js_index_elem_of in Hidx. intros Heq. rewrite Heq in Hidx.
        by apply elem_of_nil in Hidx. }
      destruct (Hpar b Hb) as (j & inc'' & node'' & Hj & Hlook' & Hres'').
      exists j, inc''. split; [done|]. split; [done|].
      exact (resolve_inj st _ _ _ _ _ W Hres'' Hresq).
Qed.

Lemma do_while_inv opStack : ∀ fuel st st',
  replay_inv opStack st →
  (pos st < Z.of_nat (length opStack))%Z →
  do_while fuel opStack st = LoopDone st' →
  userFnToRun st' = None →
  replay_inv opStack st' ∧ pos st' = Z.of_nat (length opStack).
Proof.
  induction fuel as [| fuel IH]; intros st st' Inv Hlt Hdone Hnone; [done|].
  simpl in Hdone.
  destruct (iteration opStack st) as [st1 | st1 | e] eqn:It; [| |done].
  - pose proof (replay_inv_step _ _ _ Inv It) as Inv3.
    pose proof (iteration_next_pos _ _ _ It) as Hp1.
    pose proof (sc_pos _ _ (resolveNextTick_same_control st1)) as Hp2.
    destruct (_ <? _)%Z eqn:Lt; simpl in Lt.
    + apply Z.ltb_lt in Lt. by eapply IH.
    + apply Z.ltb_ge in Lt. inversion Hdone; subst st'. split; [done|]. simpl. lia.
  - inversion Hdone; subst st'. apply iteration_break in It as [t Ht]. congruence.
Qed.

Lemma exhausts_inv fn data opStack st :
  exhausts fn data opStack st →
  replay_inv opStack st ∧ pos st = Z.of_nat (length opStack).
Proof.
  intros (_ & Hloop & Hnone). eapply do_while_inv; [| | exact Hloop | exact Hnone].
  - apply start_replay_inv.
  - rewrite start_pos. lia.
Qed.

(** ** Discovery *)

Lemma lastPosition_lookup (opStack : OpStack) incomingOp :
  opStack !! (length opStack - 1)%nat = Some incomingOp →
  lastPosition opStack = opPosition incomingOp.
Proof.
  intros H. unfold lastPosition. rewrite last_lookup.
  replace (Init.Nat.pred (length opStack)) with (length opStack - 1)%nat by lia.
  by rewrite H.
Qed.


(** ** Invoking twice *)

(** With enough turns of the event loop, the result of [runFn] does not
    depend on how many turns it was given. *)
Lemma runFn_fuel_independent serializeError fn data opStack :
  ∃ n : nat, ∀ fuel : nat, (n ≤ fuel)%nat →
    runFn serializeError fuel fn data opStack = runFn serializeError n fn data opStack ∧
    outcome (runFn serializeError n fn data opStack) ≠ OutOfFuel.
Proof.
  destruct (usesToolSync (fn data)) eqn:Huses.
  - exists 0%nat. intros fuel _.
    pose proof (runFn_step_path serializeError fn data opStack Huses)
      as Haux.
    split; [by rewrite !Haux|]. rewrite Haux.
    pose proof (replay_fuel fn data opStack) as Hfuel.
    destruct (replay fn data opStack) as [st | e |]; [|done|done].
    destruct (userFnToRun st) as [[v | err |]|]; simpl; try done.
    by destruct (serializeError err).
  - destruct (awaitUserFn_terminates (exec (fn data) createStepTools)) as (n & Hn).
    exists n. intros fuel Hle. rewrite !runFn_single by done. unfold awaitDirectly.
    destruct (Hn fuel Hle) as [-> Hne]. split; [done|]. simpl.
    by destruct (awaitUserFn n _).
Qed.


(** ** The theorems at work on the examples *)

(** A record whose position path leads nowhere makes [runFn] throw: for
    this history there is no outcome of any of the three kinds. *)
Lemma runFn_throws_on_stray_record :
  outcome (runFn plainSerializer 0 chained VNull [strayRecord]) = Threw typeError ∧
  ∀ type payload,
    outcome (runFn plainSerializer 0 chained VNull [strayRecord]) ≠ Returned type payload.
Proof. split; [reflexivity | intros type payload; vm_compute; discriminate]. Qed.

(** A stray record is not noticed when it comes after the record that asks
    to run a step, nor when the function used no tool. *)
Lemma stray_record_goes_unnoticed :
  (strayRecord ∈ [runA; strayRecord] ∧
   (∃ st, replay chained VNull [runA; strayRecord] = LoopDone st ∧
          resolve st (allFoundOps st) (opPosition strayRecord) = None) ∧
   runFn plainSerializer 0 chained VNull [runA; strayRecord] =
     quiet (Returned "multi-run" (PStep (mkStepObject (Some VNull) None)))) ∧
  (strayRecord ∈ [strayRecord] ∧
   resolve (start plain eventX4) (allFoundOps (start plain eventX4))
           (opPosition strayRecord) = None ∧
   runFn plainSerializer 0 plain eventX4 [strayRecord] =
     quiet (Returned "single" (PValue (VNum 5)))).
Proof.
  split; split.
  - apply list_elem_of_In. simpl. auto.
  - split; [|reflexivity]. eexists. split; reflexivity.
  - apply list_elem_of_In. simpl. auto.
  - split; reflexivity.
Qed.

(** [chained], after the record of its first step, meets a record for a
    root-level op that was never there. *)
Lemma drift_is_fatal_witness :
  ∃ e, is_drift_error e ∧
       runFn plainSerializer 0 chained VNull ([ranA] ++ strayRecord :: [runB]) =
         quiet (Threw e).
Proof.
  apply (drift_is_fatal plainSerializer 0 chained VNull [ranA] strayRecord [runB] afterRanA).
  - split; [reflexivity|]. split; reflexivity.
  - left. reflexivity.
Defined.

(** The second step of [chained] is asked to run and throws
    [Error("boom")]. *)
Lemma thrown_step_is_reported_witness :
  outcome (runFn plainSerializer 0 chained VNull [ranA; runB]) =
    Returned "multi-run"
      (PStep (mkStepObject None
                (Some (VObject [("name", VStr "Error"); ("message", VStr "boom")])))).
Proof.
  apply (thrown_step_is_reported plainSerializer 0 chained VNull [ranA; runB]
           (VError "Error" "boom")).
  split; [reflexivity|]. eexists. split; reflexivity.
Defined.

(** The same, with a [serializeError] that throws. *)
Lemma serialization_failure_falls_back_witness :
  runFn brokenSerializer 0 chained VNull [ranA; runB] =
    mkInvocation
      (Returned "multi-run" (PStep (mkStepObject None (Some (VError "Error" "boom")))))
      [(serializationWarning, VError "TypeError" "Converting circular structure")].
Proof.
  apply (serialization_failure_falls_back brokenSerializer 0 chained VNull [ranA; runB]
           (VError "Error" "boom") (VError "TypeError" "Converting circular structure")).
  - split; [reflexivity|]. eexists. split; reflexivity.
  - reflexivity.
Defined.

(** The first step of [chained] is asked to run and returns [undefined]. *)
Lemma undefined_step_result_is_null_witness :
  runFn plainSerializer 0 chained VNull [runA] =
    quiet (Returned "multi-run" (PStep (mkStepObject (Some VNull) None))).
Proof.
  apply (undefined_step_result_is_null plainSerializer 0 chained VNull [runA] VUndefined).
  split; [reflexivity|]. eexists. split; reflexivity.
Defined.

(** The history says that the second step of [chained] failed with
    [Error("boom")], serialized. *)
Lemma error_record_round_trip_witness :
  ∃ st',
    iteration ([ranA] ++ failedB :: []) afterRanA = Next st' ∧
    t_promise <$> heap st' !! 1%nat = Some (Settled (Abrupt (error failedB))) ∧
    microtasks st' =
      microtasks afterRanA ++ map (fun r : Reaction => snd r (error failedB)) [(Return, Throw)] ∧
    ∀ thrown,
      Some (Rejects (VError "Error" "boom")) = Some (Rejects thrown) →
      (∀ serialized, plainSerializer thrown = Normal serialized →
                     message_of serialized = message_of thrown) →
      outcome (runFn plainSerializer 0 chained VNull
                 ([ranA] ++ [mkIncomingOp (opPosition failedB) true VUndefined VUndefined])) =
        Returned "multi-run" (PStep (mkStepObject None (Some (error failedB)))) →
      message_of (error failedB) = message_of thrown.
Proof.
  apply (error_record_round_trip plainSerializer 0 chained VNull [ranA] failedB []
           afterRanA 1%nat
           (mkTickOp stepB (Some (Rejects (VError "Error" "boom"))) []
                     (Pending [(Return, Throw)]))
           [(Return, Throw)]).
  - split; [reflexivity|]. split; reflexivity.
  - reflexivity.
  - reflexivity.
  - reflexivity.
  - reflexivity.
Defined.



(** [lateTool] calls its tool one turn too late: it is a single-step
    function, and the record in its history is never read. *)
Lemma path_is_decided_by_synchronous_run_witness :
  runFn plainSerializer 2 lateTool VNull [strayRecord] =
    quiet (Returned "single" (PValue (VNum 1))).
Proof.
  apply (proj1 (path_is_decided_by_synchronous_run plainSerializer 2 lateTool VNull
                  [strayRecord])).
  reflexivity.
Defined.



(** * Further properties of [runFn] *)

(** The synchronous run of the user function leaves the root array active
    and only adds to it; a tool call in it adds an op to the root array. *)
Lemma exec_root p : ∀ st,
  tickOps st = RootOps →
  (length (allFoundOps st) ≤ length (allFoundOps (exec p st)))%nat ∧
  (usesToolSync p = true →
   (length (allFoundOps st) < length (allFoundOps (exec p st)))%nat).
Proof.
  induction p as [| v | e | o fn k IH | h f _ g _ k IH | job _ k IH]; intros st Hroot; simpl.
  - split; [lia | done].
  - unfold finish. destruct (userFnPromise st); (split; [simpl; lia | done]).
  - unfold finish. destruct (userFnPromise st); (split; [simpl; lia | done]).
  - unfold useTool. rewrite Hroot.
    match goal with |- context [exec (k ?h) ?s] => destruct (IH h s eq_refl) as [Hle _] end.
    simpl in Hle. rewrite length_app in Hle. simpl in Hle. split; [lia|]. intros _. lia.
  - assert (tickOps (subscribe h (f, g) st) = RootOps) as Hroot'
      by (by rewrite (sc_tickOps _ _ (subscribe_same_control _ _ _))).
    assert (allFoundOps (subscribe h (f, g) st) = allFoundOps st) as Hsame.
    { unfold subscribe. destruct (heap st !! h) as [node|]; [|done].
      by destruct (t_promise node). }
    destruct (IH _ Hroot') as [Hle Hlt]. rewrite Hsame in Hle, Hlt. done.
  - destruct (IH (set_microtasks (microtasks st ++ [job]) st) Hroot) as [Hle Hlt]. done.
Qed.

Lemma resolveNextTick_root st :
  tickOps st = RootOps →
  (length (allFoundOps st) ≤ length (allFoundOps (resolveNextTick st)))%nat.
Proof.
  intros Hroot. unfold resolveNextTick.
  assert (∀ jobs s, tickOps s = RootOps →
            (length (allFoundOps s) ≤
             length (allFoundOps (foldl (fun s job => exec job s) s jobs)))%nat) as Hfold.
  { induction jobs as [| job jobs IH]; intros s Hs; simpl; [lia|].
    destruct (exec_root job s Hs) as [Hle _].
    etrans; [exact Hle|]. apply IH. by rewrite (sc_tickOps _ _ (exec_same_control _ _)). }
  apply (Hfold (microtasks st) (set_microtasks [] st) Hroot).
Qed.

(** A pass over a record that is no run request selects no thunk. *)
Lemma iteration_keeps_none opStack st :
  Forall (fun incomingOp => run incomingOp = false) opStack →
  userFnToRun st = None →
  match iteration opStack st with
  | Next st' => userFnToRun st' = None
  | Break _ => False
  | Throws _ => True
  end.
Proof.
  intros Hall Hnone. destruct (decide (0 ≤ pos st)%Z) as [Hpos | Hneg].
  - destruct (js_index opStack (pos st)) as [incomingOp|] eqn:Hinc.
    + rewrite (iteration_spec _ _ incomingOp) by done.
      assert (run incomingOp = false) as Hrun.
      { rewrite Forall_forall in Hall. apply Hall. by eapply js_index_elem_of. }
      rewrite Hrun.
      destruct (resolve st (allFoundOps st) (opPosition incomingOp)) as [[a node]|]; [|done].
      simpl. by rewrite settle_userFnToRun.
    + unfold iteration. rewrite Hinc. by destruct (0 <=? pos st)%Z.
  - unfold iteration. rewrite (proj2 (Z.leb_gt _ _)) by lia. done.
Qed.

Lemma do_while_keeps_none opStack : ∀ fuel st st',
  Forall (fun incomingOp => run incomingOp = false) opStack →
  userFnToRun st = None →
  do_while fuel opStack st = LoopDone st' →
  userFnToRun st' = None.
Proof.
  induction fuel as [| fuel IH]; intros st st' Hall Hnone Hdone; [done|].
  simpl in Hdone. pose proof (iteration_keeps_none opStack st Hall Hnone) as It.
  destruct (iteration opStack st) as [st1 | st1 | e]; [|done|done].
  pose proof (resolveNextTick_same_control st1) as [_ _ Hu].
  destruct (_ <? _)%Z.
  - eapply IH; [exact Hall | | exact Hdone]. simpl. by rewrite Hu.
  - inversion Hdone; subst st'. simpl. by rewrite Hu.
Qed.

(** X1.  A record that asks to run an op that has a thunk ends the replay:
    when the loop runs through [pre] and arrives at such a record, [runFn]
    is what running that thunk gives, and the records that follow it in the
    history are not looked at. *)
Theorem run_record_ends_the_replay serializeError fuel fn event pre incomingOp post st a
    node t :
  exhausts fn event pre st →
  run incomingOp = true →
  resolve st (allFoundOps st) (opPosition incomingOp) = Some (a, node) →
  t_fn node = Some t →
  runFn serializeError fuel fn event (pre ++ incomingOp :: post) = runStep serializeError t.
Proof.
  intros Hex Hrun Hres Hfn. apply runFn_selects.
  by eapply run_record_selects.
Qed.

(** X2.  Which error a record that has drifted raises: a run request for an
    op without a thunk fails with "Bad stack; no fn to execute"; a path
    with an index that names no op fails with the TypeError of reading a
    property of [undefined]; and "Bad stack; fn might have changed" is left
    for the record whose position path is empty. *)
Theorem drift_error_by_kind serializeError fuel fn event pre incomingOp post st :
  exhausts fn event pre st →
  drifted st incomingOp →
  runFn serializeError fuel fn event (pre ++ incomingOp :: post) =
    quiet (Threw (match resolve st (allFoundOps st) (opPosition incomingOp) with
                  | Some _ => badStackNoFn
                  | None =>
                      match opPosition incomingOp with
                      | [] => badStackChanged
                      | _ :: _ => typeError
                      end
                  end)).
Proof.
  intros Hex Hd.
  destruct (replay_snoc _ _ _ incomingOp post _ Hex) as (Hpos & Hinc & left & Heq).
  destruct Hex as (Hused & _ & Hnone).
  assert (0 ≤ pos st)%Z as Hge by lia.
  unfold runFn. fold (start fn event).
  rewrite Hused. simpl negb. cbv iota. fold (replay fn event (pre ++ incomingOp :: post)).
  rewrite Heq. cbn [do_while]. rewrite (iteration_spec _ _ incomingOp) by done.
  destruct Hd as [-> | (Hrun & a & node & -> & Hfn)]; [done|].
  by rewrite Hrun, Hfn.
Qed.

(** X3.  The value of a step survives the round trip through the history.
    Let the loop run through [pre] to a state where [path] leads to a
    pending op whose thunk returns [v].  Asked to run the step, [runFn]
    reports under [data] a value [d] that is never [undefined] ([null]
    stands in for it); and a later invocation that finds [d] recorded
    as the [data] of that step resolves the step's promise with [d],
    never rejects it, and queues the promise's fulfilment handlers
    with [d]. *)
Theorem step_value_round_trip serializeError fuel fn event pre path post st a node
    reactions v :
  exhausts fn event pre st →
  resolve st (allFoundOps st) path = Some (a, node) →
  t_fn node = Some (Fulfils v) →
  t_promise node = Pending reactions →
  ∃ d,
    runFn serializeError fuel fn event (pre ++ [mkIncomingOp path true VUndefined VUndefined]) =
      quiet (Returned "multi-run" (PStep (mkStepObject (Some d) None))) ∧
    is_undefined d = false ∧
    (is_undefined v = false → d = v) ∧
    ∃ st',
      iteration (pre ++ mkIncomingOp path false d VUndefined :: post) st = Next st' ∧
      t_promise <$> heap st' !! a = Some (Settled (Normal d)) ∧
      microtasks st' = microtasks st ++ map (fun r : Reaction => fst r d) reactions.
Proof.
  intros Hex Hres Hfn Hpend.
  exists (if is_undefined v then VNull else v).
  split; [|split; [|split]].
  - rewrite (runFn_selects serializeError fuel fn event _ (Fulfils v)); [done|].
    by eapply (run_record_selects fn event pre
                 (mkIncomingOp path true VUndefined VUndefined) [] st a node).
  - by destruct v.
  - by intros ->.
  - set (d := if is_undefined v then VNull else v).
    assert (is_undefined d = false) as Hd by (unfold d; by destruct v).
    destruct (replay_snoc _ _ _ (mkIncomingOp path false d VUndefined) post _ Hex)
      as (Hpos & Hinc & _).
    assert (0 ≤ pos st)%Z as Hge by lia.
    pose proof (resolve_lookup _ _ _ _ _ Hres) as Hnode.
    rewrite (iteration_spec _ _ (mkIncomingOp path false d VUndefined))
      by (done || apply Hex).
    simpl opPosition. rewrite Hres. simpl run. cbv iota.
    assert (replayed (mkIncomingOp path false d VUndefined) = Normal d) as ->
      by (unfold replayed; simpl; by rewrite Hd).
    eexists. split; [done|].
    destruct (settle_pending a (Normal d) st node reactions Hnode Hpend) as [Hp Hq].
    split; [exact Hp | exact Hq].
Qed.

(** X4.  The first invocation of a step function.  With an empty history,
    a function that calls a step tool in its synchronous run gets a
    ["multi-discovery"] that is not empty, and whose entries have the
    one-index paths [[0]], [[1]], ... in order. *)
Theorem first_invocation_discovers serializeError fuel fn event :
  usesToolSync (fn event) = true →
  ∃ ops,
    runFn serializeError fuel fn event [] = quiet (Returned "multi-discovery" (POps ops)) ∧
    ops ≠ [] ∧
    ∀ (i : nat) op, ops !! i = Some op → out_opPosition op = [Z.of_nat i].
Proof.
  intros Huses.
  assert (hasUsedTools (start fn event) = true) as Hused
    by (by rewrite start_hasUsedTools).
  pose proof (exhausts_nil fn event Hused) as Hex.
  eexists. split; [by apply runFn_exhausts|].
  assert (tickOps (start fn event) = RootOps) as Hroot.
  { unfold start. by rewrite (sc_tickOps _ _ (exec_same_control _ _)). }
  unfold discoveredOps. simpl tickOps.
  rewrite (sc_tickOps _ _ (resolveNextTick_same_control _)), Hroot. simpl deref.
  split.
  - pose proof (resolveNextTick_root _ Hroot) as Hle.
    destruct (exec_root (fn event) createStepTools eq_refl) as [_ Hlt].
    specialize (Hlt Huses). fold (start fn event) in Hlt. simpl in Hlt.
    intros Hnil. apply (f_equal length) in Hnil. rewrite length_imap in Hnil.
    simpl in Hnil. lia.
  - intros i op Hi. rewrite list_lookup_imap in Hi.
    destruct (allFoundOps (resolveNextTick (start fn event)) !! i) as [h|]; [|done].
    simpl in Hi. inversion Hi; subst op. done.
Qed.

(** X5.  A step is only run on request: when no record of the history has
    the run flag, [runFn] never gives ["multi-run"], whatever the function
    and the records are. *)
Theorem step_runs_only_on_request serializeError fuel fn event opStack payload :
  Forall (fun incomingOp => run incomingOp = false) opStack →
  outcome (runFn serializeError fuel fn event opStack) ≠ Returned "multi-run" payload.
Proof.
  intros Hall. unfold runFn. fold (start fn event).
  destruct (hasUsedTools (start fn event)); simpl negb; cbv iota.
  - fold (replay fn event opStack).
    destruct (replay fn event opStack) as [st | e |] eqn:Hloop; [|done|done].
    rewrite (do_while_keeps_none opStack _ _ st Hall (start_userFnToRun fn event) Hloop).
    done.
  - by destruct (awaitUserFn fuel (start fn event)).
Qed.

(** [chained] after [ranA]: the run request for its second step is served
    although a stray record follows it. *)
Lemma run_record_ends_the_replay_witness :
  runFn plainSerializer 0 chained VNull ([ranA] ++ runB :: [strayRecord]) =
    runStep plainSerializer (Rejects (VError "Error" "boom")).
Proof.
  apply (run_record_ends_the_replay plainSerializer 0 chained VNull [ranA] runB
           [strayRecord] afterRanA 1%nat
           (mkTickOp stepB (Some (Rejects (VError "Error" "boom"))) []
                     (Pending [(Return, Throw)]))).
  - split; [reflexivity|]. split; reflexivity.
  - reflexivity.
  - reflexivity.
  - reflexivity.
Defined.

(** [chained] after [ranA], at a record whose path names no op. *)
Lemma drift_error_by_kind_witness :
  runFn plainSerializer 0 chained VNull ([ranA] ++ strayRecord :: [runB]) =
    quiet (Threw typeError).
Proof.
  apply (drift_error_by_kind plainSerializer 0 chained VNull [ranA] strayRecord [runB]
           afterRanA).
  - split; [reflexivity|]. split; reflexivity.
  - left. reflexivity.
Defined.

(** The first step of [chained], which returns [undefined]: it is reported
    as [null], and the record [ranA], which holds that [null], resolves its
    promise. *)
Lemma step_value_round_trip_witness :
  ∃ d,
    runFn plainSerializer 0 chained VNull
      ([] ++ [mkIncomingOp [0%Z] true VUndefined VUndefined]) =
      quiet (Returned "multi-run" (PStep (mkStepObject (Some d) None))) ∧
    is_undefined d = false ∧
    (is_undefined VUndefined = false → d = VUndefined) ∧
    ∃ st',
      iteration ([] ++ mkIncomingOp [0%Z] false d VUndefined :: [])
        (set_pos 0 (resolveNextTick (start chained VNull))) = Next st' ∧
      t_promise <$> heap st' !! 0%nat = Some (Settled (Normal d)) ∧
      microtasks st' =
        microtasks (set_pos 0 (resolveNextTick (start chained VNull))) ++
        map (fun r : Reaction => fst r d)
          [((fun _ : JsVal =>
               UseTool stepB (Some (Rejects (VError "Error" "boom")))
                 (fun b => Then b Return Throw Idle)), Throw)].
Proof.
  apply (step_value_round_trip plainSerializer 0 chained VNull [] [0%Z] []
           (set_pos 0 (resolveNextTick (start chained VNull))) 0%nat
           (mkTickOp stepA (Some (Fulfils VUndefined)) []
              (Pending [((fun _ : JsVal =>
                            UseTool stepB (Some (Rejects (VError "Error" "boom")))
                              (fun b => Then b Return Throw Idle)), Throw)]))).
  - split; [reflexivity|]. split; reflexivity.
  - reflexivity.
  - reflexivity.
  - reflexivity.
Defined.

(** [parallel], invoked for the first time. *)
Lemma first_invocation_discovers_witness :
  ∃ ops,
    runFn plainSerializer 0 parallel VNull [] =
      quiet (Returned "multi-discovery" (POps ops)) ∧
    ops ≠ [] ∧
    ∀ (i : nat) op, ops !! i = Some op → out_opPosition op = [Z.of_nat i].
Proof.
  apply (first_invocation_discovers plainSerializer 0 parallel VNull). reflexivity.
Defined.

(** [chained] with a history of replayed records only. *)
Lemma step_runs_only_on_request_witness :
  outcome (runFn plainSerializer 0 chained VNull [ranA]) ≠
    Returned "multi-run" (PStep (mkStepObject (Some VNull) None)).
Proof.
  apply (step_runs_only_on_request plainSerializer 0 chained VNull [ranA]).
  repeat constructor.
Defined.

(** * The function's id and config *)

Lemma truthy_Some s : truthy (Some s) = true ↔ s ≠ "".
Proof.
  simpl. destruct (String.eqb_spec s ""); simpl; split; intros; congruence.
Qed.

Lemma truthy_or_empty s : truthy s = true ↔ or_empty s ≠ "".
Proof.
  destruct s as [s|]; [apply truthy_Some|]. simpl. split; intros; congruence.
Qed.

Lemma params_get_delete key key' params :
  key ≠ key' → params_get key' (params_delete key params) = params_get key' params.
Proof.
  intros Hne. unfold params_delete.
  induction params as [| [k v] rest IH]; [done|].
  rewrite filter_cons. simpl.
  destruct (String.eqb_spec k key) as [-> | Hk]; simpl.
  - rewrite (proj2 (String.eqb_neq key key')) by done. exact IH.
  - by rewrite IH.
Qed.

(** [searchParams.set] and [searchParams.get] *)
Lemma params_get_set key value params :
  params_get key (params_set key value params) = Some value.
Proof.
  induction params as [| [k v] rest IH]; simpl.
  - by rewrite String.eqb_refl.
  - destruct (String.eqb_spec k key) as [-> | Hk]; simpl.
    + by rewrite String.eqb_refl.
    + by rewrite (proj2 (String.eqb_neq k key)).
Qed.

Lemma params_get_set_ne key key' value params :
  key ≠ key' → params_get key' (params_set key value params) = params_get key' params.
Proof.
  intros Hne. induction params as [| [k v] rest IH]; simpl.
  - by rewrite (proj2 (String.eqb_neq key key')).
  - destruct (String.eqb_spec k key) as [-> | Hk]; simpl.
    + rewrite (proj2 (String.eqb_neq key key')) by done. by apply params_get_delete.
    + by rewrite IH.
Qed.

(** How often a name occurs in the query. *)
Lemma params_delete_none key params :
  filter (fun kv : string * string => kv.1 = key) (params_delete key params) = [].
Proof.
  unfold params_delete. induction params as [| [k v] rest IH]; [done|].
  rewrite filter_cons. simpl.
  destruct (String.eqb_spec k key) as [-> | Hk]; simpl.
  - exact IH.
  - rewrite filter_cons. simpl. by rewrite decide_False.
Qed.

Lemma params_delete_others key key' params :
  key ≠ key' →
  filter (fun kv : string * string => kv.1 = key') (params_delete key params) =
  filter (fun kv : string * string => kv.1 = key') params.
Proof.
  intros Hne. unfold params_delete. induction params as [| [k v] rest IH]; [done|].
  rewrite (filter_cons (fun kv : string * string => negb (String.eqb kv.1 key) = true)).
  simpl. destruct (String.eqb_spec k key) as [-> | Hk]; simpl.
  - rewrite filter_cons. simpl. by rewrite decide_False.
  - rewrite !filter_cons. simpl.
    destruct (decide (k = key')); by rewrite IH.
Qed.

Lemma params_set_once key value params :
  filter (fun kv : string * string => kv.1 = key) (params_set key value params) =
  [(key, value)].
Proof.
  induction params as [| [k v] rest IH]; simpl.
  - rewrite filter_cons. simpl. by rewrite decide_True.
  - destruct (String.eqb_spec k key) as [-> | Hk].
    + rewrite filter_cons. simpl. rewrite decide_True by done.
      by rewrite params_delete_none.
    + rewrite filter_cons. simpl. by rewrite decide_False.
Qed.

Lemma params_set_others key key' value params :
  key ≠ key' →
  filter (fun kv : string * string => kv.1 = key') (params_set key value params) =
  filter (fun kv : string * string => kv.1 = key') params.
Proof.
  intros Hne. induction params as [| [k v] rest IH]; simpl.
  - rewrite filter_cons. simpl. by rewrite decide_False.
  - destruct (String.eqb_spec k key) as [-> | Hk].
    + rewrite !filter_cons. simpl. rewrite !decide_False by done.
      by apply params_delete_others.
    + rewrite !filter_cons. simpl. destruct (decide (k = key')); by rewrite IH.
Qed.

(** X6.  The first id sticks.  Once [id] has returned a non-empty id, every
    later call returns that id and leaves the function as it is, whatever
    prefix it is given: a prefix only counts at the first call, and not at
    all when the options name an id. *)
Theorem id_is_settled_by_first_call {F} slugify prefix prefix' (this : InngestFunction F) :
  (InngestFunction.id slugify prefix this).1 ≠ "" →
  InngestFunction.id slugify prefix' (InngestFunction.id slugify prefix this).2 =
    InngestFunction.id slugify prefix this.
Proof.
  unfold InngestFunction.id. intros Hid.
  destruct (truthy (opt_id (this_opts this))) eqn:Hgiven; simpl in *.
  - by rewrite Hgiven.
  - apply truthy_Some in Hid. unfold truthy in Hid |- *. by rewrite Hid.
Qed.

(** X7.  The step URL of a config.  When the query keys for the function
    and for the step differ, the [url] of the config's one step, ["step"],
    is the [href] of the base URL with the query changed so that the
    function key reads the config's id and the step key reads ["step"],
    each of the two once, and every other name as in the base URL. *)
Theorem step_url_names_function_and_step {F} slugify api queryKeys baseUrl appPrefix
    (this : InngestFunction F) :
  FnId queryKeys ≠ StepId queryKeys →
  ∃ stepUrl step,
    config_steps (InngestFunction.getConfig slugify api queryKeys baseUrl appPrefix this).1 =
      [("step", step)] ∧
    runtime_url step = href api stepUrl ∧
    location stepUrl = location baseUrl ∧
    filter (fun kv : string * string => kv.1 = FnId queryKeys) (searchParams stepUrl) =
      [(FnId queryKeys,
        config_id (InngestFunction.getConfig slugify api queryKeys baseUrl appPrefix this).1)] ∧
    filter (fun kv : string * string => kv.1 = StepId queryKeys) (searchParams stepUrl) =
      [(StepId queryKeys, "step")] ∧
    ∀ key, key ≠ FnId queryKeys → key ≠ StepId queryKeys →
      filter (fun kv : string * string => kv.1 = key) (searchParams stepUrl) =
      filter (fun kv : string * string => kv.1 = key) (searchParams baseUrl).
Proof.
  intros Hkeys. unfold InngestFunction.getConfig.
  destruct (InngestFunction.id slugify appPrefix this) as [fnId this'].
  cbn [fst config_steps config_id].
  eexists _, _. split; [reflexivity|]. cbn [runtime_url]. split; [reflexivity|].
  unfold url_set. cbn [location searchParams]. split; [reflexivity|].
  split; [|split].
  - rewrite params_set_others by done. apply params_set_once.
  - apply params_set_once.
  - intros key H1 H2. rewrite !params_set_others by done. done.
Qed.

(** X8.  Asking for the config settles the id.  After a first [getConfig]
    whose id is not empty, a second one gives the same id, whatever prefix
    and base URL it is given. *)
Theorem config_id_is_settled {F} slugify api queryKeys baseUrl baseUrl' appPrefix appPrefix'
    (this : InngestFunction F) :
  config_id (InngestFunction.getConfig slugify api queryKeys baseUrl appPrefix this).1 ≠ "" →
  config_id
    (InngestFunction.getConfig slugify api queryKeys baseUrl' appPrefix'
       (InngestFunction.getConfig slugify api queryKeys baseUrl appPrefix this).2).1 =
  config_id (InngestFunction.getConfig slugify api queryKeys baseUrl appPrefix this).1.
Proof.
  unfold InngestFunction.getConfig, InngestFunction.id.
  destruct (truthy (opt_id (this_opts this))) eqn:Hgiven; simpl.
  - by rewrite Hgiven.
  - intros Hid. apply truthy_Some in Hid. unfold truthy in Hid. by rewrite Hid.
Qed.

(** * The landing page *)

(** X9.  The label and the expression of a function block agree.  For a
    config with a first trigger neither throws; the label is ["cron"]
    exactly when the trigger has a non-empty [cron], and the expression is
    then that [cron]; otherwise the expression is the trigger's [event], or
    empty when there is none.  For a config without triggers both throw. *)
Theorem label_and_expression_agree triggers :
  match triggers with
  | [] =>
      FunctionBlock.type triggers = Thrown typeError ∧
      FunctionBlock.expression triggers = Thrown typeError
  | trigger :: _ =>
      ∃ label e,
        FunctionBlock.type triggers = Ok label ∧
        FunctionBlock.expression triggers = Ok e ∧
        (label = "cron" ∨ label = "event") ∧
        (label = "cron" ↔ truthy (trigger_cron trigger) = true) ∧
        (label = "cron" → trigger_cron trigger = Some e ∧ e ≠ "") ∧
        (label = "event" → e = or_empty (trigger_event trigger))
  end.
Proof.
  destruct triggers as [| trigger rest]; [done|].
  unfold FunctionBlock.type, FunctionBlock.expression.
  cbn [FunctionBlock.firstTrigger].
  destruct (truthy (trigger_cron trigger)) eqn:Hcron.
  - eexists _, _. split; [reflexivity|]. split; [reflexivity|]. split; [by left|].
    split; [done|]. split; [|done]. intros _.
    destruct (trigger_cron trigger) as [c|]; [|done]. split; [done|].
    by apply truthy_Some.
  - exists "event", (or_empty (trigger_event trigger)). split; [reflexivity|].
    split.
    { destruct (trigger_event trigger) as [ev|]; simpl; [|done].
      by destruct (String.eqb_spec ev "") as [-> |]. }
    split; [by right|]. split; [split; intros; congruence|]. done.
Qed.

(** X10.  From [createFunction] to the landing page.  A function created
    from a name and an event has, in its config, the id
    [slugify(prefix + "-" + name)] (an absent prefix counting as empty), its
    name, and the event as its one trigger; its block is labelled
    ["event"] and shows the event as its expression. *)
Theorem created_function_config {F} slugify api queryKeys baseUrl appPrefix name event
    (fn : F) :
  config_id (InngestFunction.getConfig slugify api queryKeys baseUrl appPrefix
               (Inngest.createFunction (inl name) event fn)).1 =
    slugify (or_empty appPrefix +:+ "-" +:+ name) ∧
  config_name (InngestFunction.getConfig slugify api queryKeys baseUrl appPrefix
                 (Inngest.createFunction (inl name) event fn)).1 = name ∧
  FunctionBlock.type
    (config_triggers (InngestFunction.getConfig slugify api queryKeys baseUrl appPrefix
                        (Inngest.createFunction (inl name) event fn)).1) = Ok "event" ∧
  FunctionBlock.expression
    (config_triggers (InngestFunction.getConfig slugify api queryKeys baseUrl appPrefix
                        (Inngest.createFunction (inl name) event fn)).1) = Ok event.
Proof.
  split; [done|]. split; [done|]. split; [done|].
  unfold FunctionBlock.expression. simpl.
  by destruct (String.eqb_spec event "") as [-> |].
Qed.

(** ["Send Welcome"], asked for its id with and then without a prefix. *)
Lemma id_is_settled_by_first_call_witness :
  InngestFunction.id dashed None (InngestFunction.id dashed (Some "My App") sendWelcome).2 =
    InngestFunction.id dashed (Some "My App") sendWelcome.
Proof.
  apply (id_is_settled_by_first_call dashed (Some "My App") None sendWelcome).
  vm_compute. discriminate.
Defined.

(** The config of ["Send Welcome"] for a base URL that has a query. *)
Lemma step_url_names_function_and_step_witness :
  ∃ stepUrl step,
    config_steps
      (InngestFunction.getConfig dashed exampleUrls exampleKeys
         (mkURL "https://example.com/api/inngest" [("stepId", "x"); ("a", "b")])
         (Some "My App") sendWelcome).1 = [("step", step)] ∧
    runtime_url step = href exampleUrls stepUrl ∧
    location stepUrl =
      location (mkURL "https://example.com/api/inngest" [("stepId", "x"); ("a", "b")]) ∧
    filter (fun kv : string * string => kv.1 = FnId exampleKeys) (searchParams stepUrl) =
      [(FnId exampleKeys,
        config_id
          (InngestFunction.getConfig dashed exampleUrls exampleKeys
             (mkURL "https://example.com/api/inngest" [("stepId", "x"); ("a", "b")])
             (Some "My App") sendWelcome).1)] ∧
    filter (fun kv : string * string => kv.1 = StepId exampleKeys) (searchParams stepUrl) =
      [(StepId exampleKeys, "step")] ∧
    ∀ key, key ≠ FnId exampleKeys → key ≠ StepId exampleKeys →
      filter (fun kv : string * string => kv.1 = key) (searchParams stepUrl) =
      filter (fun kv : string * string => kv.1 = key)
        (searchParams (mkURL "https://example.com/api/inngest" [("stepId", "x"); ("a", "b")])).
Proof.
  apply (step_url_names_function_and_step dashed exampleUrls exampleKeys
           (mkURL "https://example.com/api/inngest" [("stepId", "x"); ("a", "b")])
           (Some "My App") sendWelcome).
  vm_compute. discriminate.
Defined.

(** The config of ["Send Welcome"], asked for twice. *)
Lemma config_id_is_settled_witness :
  config_id
    (InngestFunction.getConfig dashed exampleUrls exampleKeys exampleBase None
       (InngestFunction.getConfig dashed exampleUrls exampleKeys exampleBase (Some "My App")
          sendWelcome).2).1 =
  config_id
    (InngestFunction.getConfig dashed exampleUrls exampleKeys exampleBase (Some "My App")
       sendWelcome).1.
Proof.
  apply (config_id_is_settled dashed exampleUrls exampleKeys exampleBase exampleBase
           (Some "My App") None sendWelcome).
  vm_compute. discriminate.
Defined.

(** * The client *)

Lemma get_field_set_field key v fields :
  get_field key (set_field key v fields) = Some v.
Proof.
  induction fields as [| [k x] rest IH]; simpl.
  - by rewrite String.eqb_refl.
  - destruct (String.eqb_spec k key) as [-> | Hk]; simpl.
    + by rewrite String.eqb_refl.
    + by rewrite (proj2 (String.eqb_neq k key)).
Qed.

Lemma get_field_set_field_ne key key' v fields :
  key' ≠ key → get_field key' (set_field key v fields) = get_field key' fields.
Proof.
  intros Hne. induction fields as [| [k x] rest IH]; simpl.
  - by rewrite (proj2 (String.eqb_neq key key')).
  - destruct (String.eqb_spec k key) as [-> | Hk]; simpl.
    + by rewrite (proj2 (String.eqb_neq key key')).
    + by rewrite IH.
Qed.

(** The decimal form of a number is not the word ["name"]. *)
Lemma pretty_N_go_ne_name x s : s ≠ "name" → pretty_N_go x s ≠ "name".
Proof.
  revert s. induction (N.lt_wf_0 x) as [x _ IH]; intros s ?.
  assert (x = 0 ∨ 0 < x)%N as [->|?] by lia.
  - by rewrite pretty_N_go_0.
  - rewrite pretty_N_go_step by done. apply IH.
    { by apply N.div_lt. }
    unfold pretty_N_char. by repeat case_match.
Qed.

Lemma pretty_nat_ne_name (i : nat) : pretty i ≠ "name".
Proof.
  unfold pretty, pretty_nat, pretty, pretty_N. case_decide; [done|].
  by apply pretty_N_go_ne_name.
Qed.

(** The own properties of an array are its elements under their indices. *)
Lemma get_field_indices (items : list JsVal) : ∀ n i : nat,
  get_field (pretty (n + i)%nat)
    (imap (fun (j : nat) item => (pretty (n + j)%nat, item)) items) = items !! i.
Proof.
  induction items as [| item items IH]; intros n i; [done|].
  rewrite imap_cons. simpl get_field.
  destruct i as [| i].
  - by rewrite String.eqb_refl.
  - rewrite (proj2 (String.eqb_neq _ _)).
    2:{ intros Heq. apply (inj pretty) in Heq. lia. }
    simpl. rewrite <- (IH (S n) i).
    replace (n + S i)%nat with (S n + i)%nat by lia.
    f_equal. apply imap_ext. intros j x _. simpl. do 2 f_equal. lia.
Qed.

(** X11.  A client needs a name and an event key.  The constructor returns
    a client only for a non-empty name and a non-empty event key; with an
    empty name it throws the error about the name, whatever the key is, and
    with a name but an empty key the error about the key; in neither case
    does what it throws depend on the base URL. *)
Theorem client_needs_name_and_key api name key inngestBaseUrl :
  match Inngest.new api name key inngestBaseUrl with
  | Ok client =>
      name ≠ "" ∧ key ≠ "" ∧ inngest_name client = name ∧ eventKey client = key
  | Thrown e =>
      (name = "" → e = Inngest.nameError) ∧
      (name ≠ "" → key = "" → e = Inngest.eventKeyError)
  end.
Proof.
  unfold Inngest.new.
  destruct (String.eqb_spec name "") as [-> | Hname]; [done|].
  destruct (String.eqb_spec key "") as [-> | Hkey]; [done|].
  destruct (newURL api _ None) as [baseUrl | e]; [|done].
  destruct (newURL api _ (Some _)) as [apiUrl | e]; done.
Qed.

(** X12.  [send] resolves exactly on a 2xx response: it returns normally if
    and only if the request was answered with a status from 200 to 299. *)
Theorem send_resolves_on_2xx stringify api post this name payload :
  Inngest.send stringify api post this name payload = Ok tt ↔
  ∃ response,
    post (href api (inngestApiUrl this)) (Inngest.requestBody name payload) =
      Responds response ∧
    (200 ≤ response_status response < 300)%Z.
Proof.
  unfold Inngest.send.
  destruct (post _ _) as [response | e].
  - destruct (Z.leb_spec 200 (response_status response));
      destruct (Z.ltb_spec (response_status response) 300); simpl.
    + split; [|done]. intros _. exists response. split; [done|lia].
    + split; [done|]. intros (r & [= <-] & Hs). lia.
    + split; [done|]. intros (r & [= <-] & Hs). lia.
    + split; [done|]. intros (r & [= <-] & Hs). lia.
  - split; [done|]. by intros (r & Hr & _).
Qed.

(** X13.  The body that [send] posts.  Its [name] is the [name] argument,
    also when the payload has a [name] of its own; every other property is
    that of the payload; and an array of payloads is posted as an object
    that holds each payload under its index. *)
Theorem event_name_is_the_argument name payload :
  get_field "name" (Inngest.requestBody name payload) = Some (VStr name) ∧
  (∀ key, key ≠ "name" →
     get_field key (Inngest.requestBody name payload) = get_field key (spread payload)) ∧
  (∀ items (i : nat), payload = ManyPayloads items →
     get_field (pretty i) (Inngest.requestBody name payload) = items !! i).
Proof.
  unfold Inngest.requestBody. split; [apply get_field_set_field|]. split.
  - intros key Hkey. by apply get_field_set_field_ne.
  - intros items i ->. rewrite get_field_set_field_ne by apply pretty_nat_ne_name.
    apply (get_field_indices items 0 i).
Qed.

(** X14.  What the response error shows.  Unless the status is 406, the
    error for a response depends on the status alone: the data of the
    response, and how it would be printed, play no part. *)
Theorem response_data_shows_only_at_406 stringify stringify' response response' :
  response_status response = response_status response' →
  response_status response ≠ 406%Z →
  Inngest.getResponseError stringify response =
    Inngest.getResponseError stringify' response'.
Proof.
  intros Hstatus Hne. unfold Inngest.getResponseError, Inngest.errorMessage.
  rewrite <- Hstatus. by rewrite (proj2 (Z.eqb_neq _ 406)).
Qed.

(** * The Remix handler *)

(** X15.  What the handler calls.  A request leads to at most one call on
    the handler's methods: [register] only for a PUT, with the URL of the
    request; [runStep] only for a POST, with the function and step ids of
    the query, neither of them empty, and the body of the request. *)
Theorem handler_calls_at_most_once api queryKeys stringify register runStep req :
  match (Remix.createHandler api queryKeys stringify register runStep req).2 with
  | [] => True
  | [CallRegister reqUrl] =>
      req_method req = "PUT" ∧
      newURL api (req_url req) (Some ("https://" +:+ or_empty (req_host req))) = Ok reqUrl
  | [CallRunStep fnId stepId body] =>
      req_method req = "POST" ∧ fnId ≠ "" ∧ stepId ≠ "" ∧ req_json req = Ok body ∧
      ∃ reqUrl,
        newURL api (req_url req) (Some ("https://" +:+ or_empty (req_host req))) = Ok reqUrl ∧
        params_get (FnId queryKeys) (searchParams reqUrl) = Some fnId ∧
        params_get (StepId queryKeys) (searchParams reqUrl) = Some stepId
  | _ => False
  end.
Proof.
  unfold Remix.createHandler.
  destruct (newURL api _ _) as [reqUrl | err]; [|done].
  destruct (String.eqb_spec (req_method req) "PUT") as [Hput | _].
  { by destruct (register reqUrl). }
  destruct (String.eqb_spec (req_method req) "POST") as [Hpost | _]; [|done].
  unfold Remix.nonEmptyString.
  destruct (params_get (FnId queryKeys) _) as [fnId|] eqn:Hfn; [|done].
  destruct (String.eqb_spec fnId "") as [-> | HfnId]; [done|].
  destruct (params_get (StepId queryKeys) _) as [stepId|] eqn:Hstep; [|done].
  destruct (String.eqb_spec stepId "") as [-> | HstepId]; [done|].
  destruct (req_json req) as [body | e]; [|done].
  assert (req_method req = "POST" ∧ fnId ≠ "" ∧ stepId ≠ "" ∧ Ok body = Ok body ∧
          ∃ reqUrl',
            Ok reqUrl = Ok reqUrl' ∧
            params_get (FnId queryKeys) (searchParams reqUrl') = Some fnId ∧
            params_get (StepId queryKeys) (searchParams reqUrl') = Some stepId)
    by (repeat split; try done; by exists reqUrl).
  by destruct (runStep fnId stepId body).
Qed.

(** X16.  What the handler answers on its own.  When it responds without
    having called [register] or [runStep], the response is either a 500
    whose body is the error of the URL constructor, whatever the method of
    the request, or a 405 without a body, for a method that is neither PUT
    nor POST. *)
Theorem responses_without_a_call api queryKeys stringify register runStep req response :
  Remix.createHandler api queryKeys stringify register runStep req =
    (Responded response, []) →
  (∃ err,
     newURL api (req_url req) (Some ("https://" +:+ or_empty (req_host req))) = Thrown err ∧
     response = mkResponse (stringify err) 500) ∨
  (req_method req ≠ "PUT" ∧ req_method req ≠ "POST" ∧ response = mkResponse None 405).
Proof.
  unfold Remix.createHandler.
  destruct (newURL api _ _) as [reqUrl | err].
  2:{ intros [= <-]. left. by exists err. }
  destruct (String.eqb_spec (req_method req) "PUT") as [Hput | Hput].
  { by destruct (register reqUrl). }
  destruct (String.eqb_spec (req_method req) "POST") as [Hpost | Hpost].
  - destruct (Remix.nonEmptyString _) as [fnId|]; [|done].
    destruct (Remix.nonEmptyString _) as [stepId|]; [|done].
    destruct (req_json req) as [body | e]; [|done].
    by destruct (runStep fnId stepId body).
  - intros [= <-]. by right.
Qed.

(** X17.  From the config to the step.  Let a POST go to the URL that
    [getConfig] gave for the function's step, and let the URL constructor
    read from what [href] printed for that URL the query it was printed
    from.  When the query keys differ and the body of the request can be
    read, the handler calls [runStep] once, with the id of the config, the
    step id ["step"] and the body.  Except when the id of the config is
    empty: the request is then rejected by the schema and [runStep] is not
    called. *)
Theorem step_url_reaches_the_step {F} slugify api queryKeys stringify register runStep
    baseUrl appPrefix (this : InngestFunction F) step req reqUrl body :
  FnId queryKeys ≠ StepId queryKeys →
  ("step", step) ∈
    config_steps (InngestFunction.getConfig slugify api queryKeys baseUrl appPrefix this).1 →
  req_url req = runtime_url step →
  req_method req = "POST" →
  req_json req = Ok body →
  newURL api
    (href api
       (url_set (StepId queryKeys) "step"
          (url_set (FnId queryKeys)
             (config_id (InngestFunction.getConfig slugify api queryKeys baseUrl appPrefix
                           this).1)
             baseUrl)))
    (Some ("https://" +:+ or_empty (req_host req))) = Ok reqUrl →
  searchParams reqUrl =
    searchParams
      (url_set (StepId queryKeys) "step"
         (url_set (FnId queryKeys)
            (config_id (InngestFunction.getConfig slugify api queryKeys baseUrl appPrefix
                          this).1)
            baseUrl)) →
  if String.eqb
       (config_id (InngestFunction.getConfig slugify api queryKeys baseUrl appPrefix this).1) ""
  then
    Remix.createHandler api queryKeys stringify register runStep req = (RejectedBySchema, [])
  else
    (Remix.createHandler api queryKeys stringify register runStep req).2 =
      [CallRunStep
         (config_id (InngestFunction.getConfig slugify api queryKeys baseUrl appPrefix this).1)
         "step" body].
Proof.
  intros Hkeys Hstep Hurl Hmethod Hbody Hparse Hquery.
  assert (runtime_url step =
          href api
            (url_set (StepId queryKeys) "step"
               (url_set (FnId queryKeys)
                  (config_id (InngestFunction.getConfig slugify api queryKeys baseUrl
                                appPrefix this).1)
                  baseUrl))) as Hprinted.
  { revert Hstep. unfold InngestFunction.getConfig.
    destruct (InngestFunction.id slugify appPrefix this) as [fnId this'].
    cbn [fst config_steps config_id]. intros Hstep.
    apply list_elem_of_singleton in Hstep. by inversion Hstep. }
  unfold Remix.createHandler. rewrite Hurl, Hprinted, Hparse, Hmethod, Hquery, Hbody.
  cbn [String.eqb Ascii.eqb Bool.eqb andb].
  unfold url_set. cbn [searchParams].
  rewrite params_get_set_ne by done. rewrite !params_get_set.
  unfold Remix.nonEmptyString.
  destruct (String.eqb _ ""); [done|]. cbn [String.eqb Ascii.eqb Bool.eqb andb].
  by destruct (runStep _ _ body).
Qed.

(** A 404 and a 404, with different data and printers. *)
Lemma response_data_shows_only_at_406_witness :
  Inngest.getResponseError (fun _ => "a") (mkAxiosResponse 404 VNull) =
    Inngest.getResponseError (fun _ => "b") (mkAxiosResponse 404 (VStr "no such key")).
Proof.
  apply (response_data_shows_only_at_406 (fun _ => "a") (fun _ => "b")
           (mkAxiosResponse 404 VNull) (mkAxiosResponse 404 (VStr "no such key"))).
  - reflexivity.
  - simpl. lia.
Defined.

(** A GET. *)
Lemma responses_without_a_call_witness :
  (∃ err,
     newURL exampleUrls
       (req_url (mkRequest "/api/inngest" (Some "example.com") "GET" (Ok VNull)))
       (Some ("https://" +:+
              or_empty (req_host (mkRequest "/api/inngest" (Some "example.com") "GET"
                                    (Ok VNull))))) = Thrown err ∧
     mkResponse None 405 = mkResponse (None : option string) 500) ∨
  (req_method (mkRequest "/api/inngest" (Some "example.com") "GET" (Ok VNull)) ≠ "PUT" ∧
   req_method (mkRequest "/api/inngest" (Some "example.com") "GET" (Ok VNull)) ≠ "POST" ∧
   mkResponse None 405 = mkResponse None 405).
Proof.
  apply (responses_without_a_call exampleUrls exampleKeys (fun _ => None)
           (fun _ => Ok (mkRegistered 200 "ok"))
           (fun _ _ _ => Ok (mkStepRes 200 VUndefined VNull))
           (mkRequest "/api/inngest" (Some "example.com") "GET" (Ok VNull))
           (mkResponse None 405)).
  reflexivity.
Defined.

(** A POST to the step URL in the config of ["Send Welcome"]. *)
Lemma step_url_reaches_the_step_witness :
  (Remix.createHandler exampleUrls exampleKeys (fun _ => None)
     (fun _ => Ok (mkRegistered 200 "ok"))
     (fun _ _ _ => Ok (mkStepRes 200 VUndefined VNull))
     (mkRequest "https://example.com/api/inngest?fnId=my-app-send-welcome&stepId=step"
        (Some "example.com") "POST" (Ok (VObject [("x", VNum 4)])))).2 =
    [CallRunStep "my-app-send-welcome" "step" (VObject [("x", VNum 4)])].
Proof.
  apply (step_url_reaches_the_step dashed exampleUrls exampleKeys (fun _ => None)
           (fun _ => Ok (mkRegistered 200 "ok"))
           (fun _ _ _ => Ok (mkStepRes 200 VUndefined VNull))
           exampleBase (Some "My App") sendWelcome
           (mkStepConfig "step" "step" "http"
              "https://example.com/api/inngest?fnId=my-app-send-welcome&stepId=step")
           (mkRequest "https://example.com/api/inngest?fnId=my-app-send-welcome&stepId=step"
              (Some "example.com") "POST" (Ok (VObject [("x", VNum 4)])))
           (mkURL "https://example.com/api/inngest"
              [("fnId", "my-app-send-welcome"); ("stepId", "step")])
           (VObject [("x", VNum 4)])).
  - vm_compute. discriminate.
  - vm_compute. apply list_elem_of_here.
  - reflexivity.
  - reflexivity.
  - reflexivity.
  - reflexivity.
  - reflexivity.
Defined.
